(** * A shallow embedding of [chess.py]

    The program is a small two-player chess engine: a coordinate codec
    ([algebraic_to_rc], [rc_to_algebraic]), six piece classes with their
    [pseudo_legal_moves], a [Board] holding an 8x8 grid with one mutating
    method [move], and a [Game] whose [input_loop] reads commands.

    Conventions of the embedding:
    - Python integers are [Z]; a square is a pair [(row, column)].
    - Python strings are [string]; a character is an 8-bit code point, and
      [str.strip] and [str.lower] follow Python on that range.
    - A Python call either returns, raises, or (for the one [while] loop,
      which is run on fuel) is cut off: this is the type [outcome].
    - Mutation of [self.grid] and of the [Game] fields is state passing. *)

From Stdlib Require Import String Ascii ZArith List Bool Lia.
From Stdlib Require Import DecimalString.
From Stdlib Require DecimalPos DecimalZ.
Import ListNotations.

Open Scope Z_scope.

(** ** Outcomes of Python calls *)

Inductive exn : Type := IndexError | KeyError | ValueError | EOFError.

Inductive outcome (A : Type) : Type :=
| Ret (a : A)
| Raise (e : exn)
| OutOfFuel.

Arguments Ret {A} a.
Arguments Raise {A} e.
Arguments OutOfFuel {A}.

Definition bind {A B : Type} (m : outcome A) (k : A -> outcome B) : outcome B :=
  match m with
  | Ret a => k a
  | Raise e => Raise e
  | OutOfFuel => OutOfFuel
  end.

Notation "x <- m ;; k" := (bind m (fun x => k))
  (at level 61, m at next level, right associativity).

(** A [for] loop whose body contributes squares to one result list. *)
Fixpoint for_each {A B : Type} (xs : list A) (body : A -> outcome (list B))
  : outcome (list B) :=
  match xs with
  | [] => Ret []
  | x :: xs' =>
      here <- body x ;;
      rest <- for_each xs' body ;;
      Ret (here ++ rest)
  end.

(** ** Python sequences: indexing with negative indices and [IndexError] *)

Definition norm_index (n : nat) (i : Z) : outcome nat :=
  let j := if i <? 0 then i + Z.of_nat n else i in
  if (0 <=? j) && (j <? Z.of_nat n) then Ret (Z.to_nat j) else Raise IndexError.

Definition list_getitem {A : Type} (l : list A) (i : Z) : outcome A :=
  j <- norm_index (length l) i ;;
  match nth_error l j with
  | Some x => Ret x
  | None => Raise IndexError
  end.

Fixpoint replace_nth {A : Type} (l : list A) (j : nat) (x : A) : list A :=
  match l, j with
  | [], _ => []
  | _ :: t, O => x :: t
  | h :: t, S j' => h :: replace_nth t j' x
  end.

Definition list_setitem {A : Type} (l : list A) (i : Z) (x : A) : outcome (list A) :=
  j <- norm_index (length l) i ;;
  Ret (replace_nth l j x).

Definition enumerate {A : Type} (l : list A) : list (Z * A) :=
  combine (map Z.of_nat (seq 0 (length l))) l.

(** ** Python dictionaries, as association lists *)

Fixpoint dict_get {K V : Type} (eqb : K -> K -> bool) (d : list (K * V)) (k : K)
  : outcome V :=
  match d with
  | [] => Raise KeyError
  | (k', v) :: d' => if eqb k k' then Ret v else dict_get eqb d' k
  end.

Fixpoint dict_mem {K V : Type} (eqb : K -> K -> bool) (d : list (K * V)) (k : K)
  : bool :=
  match d with
  | [] => false
  | (k', _) :: d' => eqb k k' || dict_mem eqb d' k
  end.

(** ** Python strings *)

(** [str.isspace] on one character. *)
Definition is_space (a : ascii) : bool :=
  let n := N_of_ascii a in
  ((9 <=? n) && (n <=? 13) || (28 <=? n) && (n <=? 32)
   || (n =? 133) || (n =? 160))%N.

(** [str.lower] on one character. *)
Definition lower_ascii (a : ascii) : ascii :=
  let n := N_of_ascii a in
  if ((65 <=? n) && (n <=? 90) || (192 <=? n) && (n <=? 214)
      || (216 <=? n) && (n <=? 222))%N
  then ascii_of_N (n + 32) else a.

Fixpoint lower (s : string) : string :=
  match s with
  | EmptyString => EmptyString
  | String a s' => String (lower_ascii a) (lower s')
  end.

Fixpoint lstrip (s : string) : string :=
  match s with
  | EmptyString => EmptyString
  | String a s' => if is_space a then lstrip s' else s
  end.

Fixpoint rstrip (s : string) : string :=
  match s with
  | EmptyString => EmptyString
  | String a s' =>
      match rstrip s' with
      | EmptyString => if is_space a then EmptyString else String a EmptyString
      | t => String a t
      end
  end.

Definition strip (s : string) : string := rstrip (lstrip s).

Definition str_getitem (s : string) (i : Z) : outcome ascii :=
  list_getitem (list_ascii_of_string s) i.

(** [ch in s] for a one-character [ch]. *)
Fixpoint str_contains (s : string) (ch : ascii) : bool :=
  match s with
  | EmptyString => false
  | String a s' => Ascii.eqb ch a || str_contains s' ch
  end.

(** [int(ch)] for a one-character string. *)
Definition int_of_char (ch : ascii) : outcome Z :=
  let n := N_of_ascii ch in
  if ((48 <=? n) && (n <=? 57))%N then Ret (Z.of_N n - 48) else Raise ValueError.

(** [str(n)] for an integer, as an f-string formats it. *)
Definition str_of_int (n : Z) : string := NilZero.string_of_int (Z.to_int n).

(** [str.split()] with no argument: maximal runs of non-space characters. *)
Fixpoint split_from (cur : string) (s : string) : list string :=
  match s with
  | EmptyString => match cur with EmptyString => [] | _ => [cur] end
  | String a s' =>
      if is_space a
      then match cur with
           | EmptyString => split_from EmptyString s'
           | _ => cur :: split_from EmptyString s'
           end
      else split_from (cur ++ String a EmptyString)%string s'
  end.

Definition split (s : string) : list string := split_from EmptyString s.

Fixpoint join (sep : string) (l : list string) : string :=
  match l with
  | [] => EmptyString
  | [x] => x
  | x :: l' => (x ++ sep ++ join sep l')%string
  end.

(** ** Coordinate codec *)

Definition FILE_TO_COL : list (ascii * Z) :=
  map (fun '(i, c) => (c, i)) (enumerate (list_ascii_of_string "abcdefgh"%string)).

Definition COL_TO_FILE : list (Z * ascii) :=
  map (fun '(c, i) => (i, c)) FILE_TO_COL.

Definition in_bounds (r c : Z) : bool :=
  (0 <=? r) && (r <? 8) && ((0 <=? c) && (c <? 8)).

Definition algebraic_to_rc (s : string) : outcome (option (Z * Z)) :=
  let s := lower (strip s) in
  if negb (Nat.eqb (String.length s) 2) then Ret None else
  s0 <- str_getitem s 0 ;;
  if negb (dict_mem Ascii.eqb FILE_TO_COL s0) then Ret None else
  s1 <- str_getitem s 1 ;;
  if negb (str_contains "12345678"%string s1) then Ret None else
  s1' <- str_getitem s 1 ;;
  d <- int_of_char s1' ;;
  s0' <- str_getitem s 0 ;;
  col <- dict_get Ascii.eqb FILE_TO_COL s0' ;;
  Ret (Some (8 - d, col)).

Definition rc_to_algebraic (r c : Z) : outcome string :=
  f <- dict_get Z.eqb COL_TO_FILE c ;;
  Ret (String f (str_of_int (8 - r))).

(** ** Pieces *)

Inductive Color : Type := WHITE | BLACK.

Definition Color_eqb (a b : Color) : bool :=
  match a, b with
  | WHITE, WHITE | BLACK, BLACK => true
  | _, _ => false
  end.

(** The six subclasses of [Piece]; an instance carries only its colour. *)
Inductive Kind : Type := King | Queen | Rook | Bishop | Knight | Pawn.

Record Piece : Type := mkPiece { kind : Kind; color : Color }.

Definition isinstance (p : Piece) (k : Kind) : bool :=
  match kind p, k with
  | King, King | Queen, Queen | Rook, Rook
  | Bishop, Bishop | Knight, Knight | Pawn, Pawn => true
  | _, _ => false
  end.

(** ** The board: [self.grid] is a list of eight distinct row lists *)

Record Board : Type := mkBoard { grid : list (list (option Piece)) }.

Definition Board_at (b : Board) (r c : Z) : outcome (option Piece) :=
  row <- list_getitem (grid b) r ;;
  list_getitem row c.

(** [self.grid[r][c] = v]: the row object is fetched and updated in place. *)
Definition grid_setitem (b : Board) (r c : Z) (v : option Piece) : outcome Board :=
  row <- list_getitem (grid b) r ;;
  row' <- list_setitem row c v ;;
  g' <- list_setitem (grid b) r row' ;;
  Ret (mkBoard g').

(** ** Move generation *)

Definition is_opponent (self : Piece) (other : option Piece) : bool :=
  match other with
  | None => false
  | Some o => negb (Color_eqb (color o) (color self))
  end.

(** The [while] loop of [line_moves] for one direction, entered at
    [(rr, cc)]; one unit of fuel per test of the loop condition. *)
Fixpoint line_walk (fuel : nat) (self : Piece) (b : Board) (rr cc dr dc : Z)
  : outcome (list (Z * Z)) :=
  match fuel with
  | O => OutOfFuel
  | S fuel' =>
      if in_bounds rr cc then
        t <- Board_at b rr cc ;;
        match t with
        | None =>
            rest <- line_walk fuel' self b (rr + dr) (cc + dc) dr dc ;;
            Ret ((rr, cc) :: rest)
        | Some _ =>
            if is_opponent self t then Ret [(rr, cc)] else Ret []
        end
      else Ret []
  end.

Definition line_moves (fuel : nat) (self : Piece) (b : Board) (r c : Z)
  (deltas : list (Z * Z)) : outcome (list (Z * Z)) :=
  for_each deltas (fun '(dr, dc) => line_walk fuel self b (r + dr) (c + dc) dr dc).

(** The loop body shared by [King] and [Knight]. *)
Definition leap (self : Piece) (b : Board) (r c dr dc : Z) : outcome (list (Z * Z)) :=
  let rr := r + dr in
  let cc := c + dc in
  if in_bounds rr cc then
    t <- Board_at b rr cc ;;
    match t with
    | None => Ret [(rr, cc)]
    | Some _ => if is_opponent self t then Ret [(rr, cc)] else Ret []
    end
  else Ret [].

Definition King_moves (self : Piece) (b : Board) (r c : Z) : outcome (list (Z * Z)) :=
  for_each [-1; 0; 1] (fun dr =>
    for_each [-1; 0; 1] (fun dc =>
      if (dr =? 0) && (dc =? 0) then Ret [] else leap self b r c dr dc)).

Definition Queen_deltas : list (Z * Z) :=
  [(-1,0); (1,0); (0,-1); (0,1); (-1,-1); (-1,1); (1,-1); (1,1)].
Definition Rook_deltas : list (Z * Z) := [(-1,0); (1,0); (0,-1); (0,1)].
Definition Bishop_deltas : list (Z * Z) := [(-1,-1); (-1,1); (1,-1); (1,1)].
Definition Knight_deltas : list (Z * Z) :=
  [(-2,-1); (-2,1); (-1,-2); (-1,2); (1,-2); (1,2); (2,-1); (2,1)].

Definition Knight_moves (self : Piece) (b : Board) (r c : Z) : outcome (list (Z * Z)) :=
  for_each Knight_deltas (fun '(dr, dc) => leap self b r c dr dc).

Definition Pawn_moves (self : Piece) (b : Board) (r c : Z) : outcome (list (Z * Z)) :=
  let d := if Color_eqb (color self) WHITE then -1 else 1 in
  let start := if Color_eqb (color self) WHITE then 6 else 1 in
  let one := (r + d, c) in
  forward <-
    (if in_bounds (fst one) (snd one) then
       t1 <- Board_at b (fst one) (snd one) ;;
       match t1 with
       | Some _ => Ret []
       | None =>
           let two := (r + 2 * d, c) in
           if (r =? start) && in_bounds (fst two) (snd two) then
             t2 <- Board_at b (fst two) (snd two) ;;
             match t2 with
             | None => Ret [one; two]
             | Some _ => Ret [one]
             end
           else Ret [one]
       end
     else Ret []) ;;
  diagonal <-
    for_each [-1; 1] (fun dc =>
      let rr := r + d in
      let cc := c + dc in
      if in_bounds rr cc then
        t <- Board_at b rr cc ;;
        if is_opponent self t then Ret [(rr, cc)] else Ret []
      else Ret []) ;;
  Ret (forward ++ diagonal).

(** Dynamic dispatch of [p.pseudo_legal_moves(board, r, c)]. *)
Definition pseudo_legal_moves (fuel : nat) (p : Piece) (b : Board) (r c : Z)
  : outcome (list (Z * Z)) :=
  match kind p with
  | King => King_moves p b r c
  | Queen => line_moves fuel p b r c Queen_deltas
  | Rook => line_moves fuel p b r c Rook_deltas
  | Bishop => line_moves fuel p b r c Bishop_deltas
  | Knight => Knight_moves p b r c
  | Pawn => Pawn_moves p b r c
  end.

(** [sq in moves] on a list of tuples. *)
Definition mem_sq (sq : Z * Z) (moves : list (Z * Z)) : bool :=
  existsb (fun m => (fst m =? fst sq) && (snd m =? snd sq)) moves.

(** ** Methods that mutate: state passing, the state kept when a call raises *)

Definition stateful (S A : Type) : Type := S -> outcome A * S.

Definition sret {S A : Type} (a : A) : stateful S A := fun s => (Ret a, s).

Definition sbind {S A B : Type} (m : stateful S A) (k : A -> stateful S B)
  : stateful S B :=
  fun s =>
    match m s with
    | (Ret a, s') => k a s'
    | (Raise e, s') => (Raise e, s')
    | (OutOfFuel, s') => (OutOfFuel, s')
    end.

Definition reading {S A : Type} (f : S -> outcome A) : stateful S A :=
  fun s => (f s, s).

Definition updating {S : Type} (f : S -> outcome S) : stateful S unit :=
  fun s =>
    match f s with
    | Ret s' => (Ret tt, s')
    | Raise e => (Raise e, s)
    | OutOfFuel => (OutOfFuel, s)
    end.

Notation "x <~ m ;; k" := (sbind m (fun x => k))
  (at level 61, m at next level, right associativity).

Fixpoint sfor {S A : Type} (xs : list A) (body : A -> stateful S unit)
  : stateful S unit :=
  match xs with
  | [] => sret tt
  | x :: xs' => _ <~ body x ;; sfor xs' body
  end.

Definition Board_setup_initial : stateful Board unit :=
  _ <~ sfor (map Z.of_nat (seq 0 8)) (fun c =>
         _ <~ updating (fun b => grid_setitem b 6 c (Some (mkPiece Pawn WHITE))) ;;
         updating (fun b => grid_setitem b 1 c (Some (mkPiece Pawn BLACK)))) ;;
  let order := [Rook; Knight; Bishop; Queen; King; Bishop; Knight; Rook] in
  sfor (enumerate order) (fun '(c, cls) =>
    _ <~ updating (fun b => grid_setitem b 7 c (Some (mkPiece cls WHITE))) ;;
    updating (fun b => grid_setitem b 0 c (Some (mkPiece cls BLACK)))).

(** [Board()]: eight fresh rows of eight [None], then [setup_initial]. *)
Definition Board_init : outcome unit * Board :=
  Board_setup_initial (mkBoard (map (fun _ => repeat None 8) (seq 0 8))).

Definition Board_move (fuel : nat) (src dst : Z * Z) : stateful Board (bool * string) :=
  let '(r1, c1) := src in
  let '(r2, c2) := dst in
  p <~ reading (fun b => Board_at b r1 c1) ;;
  match p with
  | None => sret (false, EmptyString)
  | Some p =>
      t <~ reading (fun b => Board_at b r2 c2) ;;
      if match t with
         | Some t' => Color_eqb (color t') (color p)
         | None => false
         end
      then sret (false, EmptyString)
      else
        moves <~ reading (fun b => pseudo_legal_moves fuel p b r1 c1) ;;
        if negb (mem_sq (r2, c2) moves) then sret (false, EmptyString)
        else
          _ <~ updating (fun b => grid_setitem b r2 c2 (Some p)) ;;
          _ <~ updating (fun b => grid_setitem b r1 c1 None) ;;
          if isinstance p Pawn
             && (Color_eqb (color p) WHITE && (r2 =? 0)
                 || Color_eqb (color p) BLACK && (r2 =? 7))
          then
            _ <~ updating (fun b =>
                   grid_setitem b r2 c2 (Some (mkPiece Queen (color p)))) ;;
            sret (true, EmptyString)
          else sret (true, EmptyString)
  end.

Definition Board_legal_moves_from (fuel : nat) (b : Board) (r c : Z)
  : outcome (list (Z * Z)) :=
  p <- Board_at b r c ;;
  match p with
  | Some p' => pseudo_legal_moves fuel p' b r c
  | None => Ret []
  end.

(** ** The game and its command loop *)

Record Game : Type := mkGame {
  board : Board;
  turn : Color;
  history : list string;
  running : bool
}.

Definition Game_init : outcome Game :=
  match Board_init with
  | (Ret _, b) => Ret (mkGame b WHITE [] true)
  | (Raise e, _) => Raise e
  | (OutOfFuel, _) => OutOfFuel
  end.

Definition Game_other (c : Color) : Color :=
  if Color_eqb c WHITE then BLACK else WHITE.

Definition Game_switch_turn (g : Game) : Game :=
  mkGame (board g) (Game_other (turn g)) (history g) (running g).

(** What the loop writes: the prompt of [input], a rendered board (the
    text is a function of the grid, so the event carries the board) or a
    printed line. *)
Inductive event : Type :=
| Prompt (c : Color)
| PrintBoard (b : Board)
| PrintLine (s : string).

Record World : Type := mkWorld { self : Game; stdout : list event }.

Inductive ctl : Type := Continue | Break.

Definition print (e : event) : stateful World unit :=
  fun w => (Ret tt, mkWorld (self w) (stdout w ++ [e])).

Definition on_self (f : Game -> Game) : stateful World unit :=
  fun w => (Ret tt, mkWorld (f (self w)) (stdout w)).

(** A call of a [Board] method on [self.board]. *)
Definition on_board {A : Type} (m : stateful Board A) : stateful World A :=
  fun w =>
    let '(res, b') := m (board (self w)) in
    (res, mkWorld (mkGame b' (turn (self w)) (history (self w)) (running (self w)))
                  (stdout w)).

(** Lines 150-160: the command is a move. *)
Definition input_loop_move (fuel : nat) (parts : list string) : stateful World ctl :=
  if negb (Nat.eqb (List.length parts) 2) then sret Continue else
  p0 <~ reading (fun _ => list_getitem parts 0) ;;
  src <~ reading (fun _ => algebraic_to_rc p0) ;;
  p1 <~ reading (fun _ => list_getitem parts 1) ;;
  dst <~ reading (fun _ => algebraic_to_rc p1) ;;
  match src, dst with
  | Some src, Some dst =>
      p <~ reading (fun w => Board_at (board (self w)) (fst src) (snd src)) ;;
      t <~ reading (fun w => Ret (turn (self w))) ;;
      if match p with
         | None => true
         | Some p' => negb (Color_eqb (color p') t)
         end
      then sret Continue
      else
        res <~ on_board (Board_move fuel src dst) ;;
        if negb (fst res) then sret Continue
        else
          q0 <~ reading (fun _ => list_getitem parts 0) ;;
          q1 <~ reading (fun _ => list_getitem parts 1) ;;
          _ <~ on_self (fun g =>
                 mkGame (board g) (turn g)
                        (history g ++ [(q0 ++ " -> " ++ q1)%string]) (running g)) ;;
          b <~ reading (fun w => Ret (board (self w))) ;;
          _ <~ print (PrintBoard b) ;;
          _ <~ on_self Game_switch_turn ;;
          sret Continue
  | _, _ => sret Continue
  end.

(** One turn of the [while] loop, after [raw = input(...).strip()]. *)
Definition input_loop_body (fuel : nat) (raw : string) : stateful World ctl :=
  if String.eqb raw "quit" || String.eqb raw "exit" then sret Break else
  if String.eqb raw "board" then
    b <~ reading (fun w => Ret (board (self w))) ;;
    _ <~ print (PrintBoard b) ;;
    sret Continue
  else if String.eqb raw "history" then
    h <~ reading (fun w => Ret (history (self w))) ;;
    _ <~ sfor h (fun m => print (PrintLine m)) ;;
    sret Continue
  else if String.prefix "moves " raw then
    arg <~ reading (fun _ => list_getitem (split raw) 1) ;;
    sq <~ reading (fun _ => algebraic_to_rc arg) ;;
    match sq with
    | None => sret Continue
    | Some (r, c) =>
        moves <~ reading (fun w => Board_legal_moves_from fuel (board (self w)) r c) ;;
        names <~ reading (fun _ =>
                   for_each moves (fun m =>
                     n <- rc_to_algebraic (fst m) (snd m) ;; Ret [n])) ;;
        _ <~ print (PrintLine (join ", " names)) ;;
        sret Continue
    end
  else input_loop_move fuel (split raw).

(** The [while self.running] loop, fed the lines that [input] will return;
    [input] raises [EOFError] when they are used up. *)
Fixpoint input_loop_while (fuel : nat) (inputs : list string) : stateful World unit :=
  r <~ reading (fun w => Ret (running (self w))) ;;
  if negb r then sret tt else
  t <~ reading (fun w => Ret (turn (self w))) ;;
  _ <~ print (Prompt t) ;;
  match inputs with
  | [] => reading (fun _ => Raise EOFError)
  | line :: rest =>
      c <~ input_loop_body fuel (strip line) ;;
      match c with
      | Break => sret tt
      | Continue => input_loop_while fuel rest
      end
  end.

Definition input_loop (fuel : nat) (inputs : list string) : stateful World unit :=
  b <~ reading (fun w => Ret (board (self w))) ;;
  _ <~ print (PrintBoard b) ;;
  input_loop_while fuel inputs.

(** * Vocabulary of the properties *)

(** A board is well formed when its grid is 8x8, as [Board()] builds it
    and every item assignment keeps it. *)
Definition wf_board (b : Board) : Prop :=
  List.length (grid b) = 8%nat /\
  Forall (fun row => List.length row = 8%nat) (grid b).

(** The occupant of an in-range square, and the grid after one item
    assignment, as total functions. *)
Definition cell (b : Board) (r c : Z) : option Piece :=
  nth (Z.to_nat c) (nth (Z.to_nat r) (grid b) []) None.

Definition set_cell (b : Board) (r c : Z) (v : option Piece) : Board :=
  mkBoard (replace_nth (grid b) (Z.to_nat r)
             (replace_nth (nth (Z.to_nat r) (grid b) []) (Z.to_nat c) v)).

(** A square a piece of [self]'s colour may stop on: on the board, and
    empty or held by the other colour. *)
Definition landable (self : Piece) (b : Board) (sq : Z * Z) : Prop :=
  in_bounds (fst sq) (snd sq) = true /\
  (cell b (fst sq) (snd sq) = None \/
   is_opponent self (cell b (fst sq) (snd sq)) = true).

(** A square the walk entered at [(rr, cc)] reaches after [k] more steps:
    the [k] squares before it are on the board and empty. *)
Definition walk_reach (self : Piece) (b : Board) (rr cc dr dc : Z) (sq : Z * Z)
  : Prop :=
  exists k : nat,
    sq = (rr + Z.of_nat k * dr, cc + Z.of_nat k * dc) /\
    (forall j : nat, (j < k)%nat ->
       in_bounds (rr + Z.of_nat j * dr) (cc + Z.of_nat j * dc) = true /\
       cell b (rr + Z.of_nat j * dr) (cc + Z.of_nat j * dc) = None) /\
    landable self b sq.

(** A direction of a sliding piece: a king's step. *)
Definition unit_step (dr dc : Z) : Prop :=
  -1 <= dr <= 1 /\ -1 <= dc <= 1 /\ (dr <> 0 \/ dc <> 0).

(** The number of squares left before the walk leaves the board. *)
Definition steps_left (rr cc dr dc : Z) : Z :=
  if dr =? 1 then 8 - rr
  else if dr =? -1 then rr + 1
  else if dc =? 1 then 8 - cc
  else cc + 1.

(** A pawn's direction of travel and starting row. *)
Definition pawn_dir (col : Color) : Z := if Color_eqb col WHITE then -1 else 1.
Definition pawn_start (col : Color) : Z := if Color_eqb col WHITE then 6 else 1.

(** A square of the board with nothing on it. *)
Definition vacant (b : Board) (r c : Z) : Prop :=
  in_bounds r c = true /\ cell b r c = None.

(** The promotion test of [move]. *)
Definition promotes (p : Piece) (r2 : Z) : bool :=
  isinstance p Pawn
  && (Color_eqb (color p) WHITE && (r2 =? 0)
      || Color_eqb (color p) BLACK && (r2 =? 7)).

(** The grid after the three item assignments of an accepted move. *)
Definition moved_board (b : Board) (r1 c1 r2 c2 : Z) (p : Piece) : Board :=
  let b2 := set_cell (set_cell b r2 c2 (Some p)) r1 c1 None in
  if promotes p r2
  then set_cell b2 r2 c2 (Some (mkPiece Queen (color p)))
  else b2.

(** The test [t is not None and t.color == p.color] of [move]. *)
Definition same_color_at (p : Piece) (t : option Piece) : bool :=
  match t with
  | Some t' => Color_eqb (color t') (color p)
  | None => false
  end.

(** The grid before [setup_initial], and the position after it. *)
Definition empty_board : Board :=
  mkBoard (map (fun _ => repeat None 8) (seq 0 8)).

Definition initial_board : Board := Eval vm_compute in snd Board_init.

(** The pieces of one colour on the board. *)
Definition count_color (b : Board) (col : Color) : nat :=
  List.length
    (filter (fun t => match t with
                      | Some p => Color_eqb (color p) col
                      | None => false
                      end)
       (concat (grid b))).

(** The file letters and the rank digits. *)
Definition files : list ascii := list_ascii_of_string "abcdefgh".
Definition ranks : list ascii := list_ascii_of_string "12345678".

(** The normal form of a square name: trimmed, then lowercased. *)
Definition normalize (s : string) : string := lower (strip s).

(** A valid square name: after normalising, a file letter and a rank digit. *)
Definition valid_square_text (s : string) : Prop :=
  exists f d,
    normalize s = String f (String d EmptyString) /\ In f files /\ In d ranks.

(** An empty square of the board. *)
Definition empty_square (b : Board) (r c : Z) : Prop :=
  in_bounds r c = true /\ Board_at b r c = Ret None.

(** A square holding a piece of the colour opposite to [p]'s. *)
Definition opponent_square (p : Piece) (b : Board) (r c : Z) : Prop :=
  in_bounds r c = true /\
  exists t, Board_at b r c = Ret (Some t) /\ color t <> color p.

(** The directions of the sliding pieces: the queen's eight, the rook's
    four orthogonal, the bishop's four diagonal. *)
Definition slide_dir (k : Kind) (dr dc : Z) : Prop :=
  match k with
  | Queen => -1 <= dr <= 1 /\ -1 <= dc <= 1 /\ (dr <> 0 \/ dc <> 0)
  | Rook => (dr = 0 /\ (dc = -1 \/ dc = 1)) \/ (dc = 0 /\ (dr = -1 \/ dr = 1))
  | Bishop => (dr = -1 \/ dr = 1) /\ (dc = -1 \/ dc = 1)
  | _ => False
  end.

(** The direction list each sliding class passes to [line_moves]. *)
Definition slide_deltas (k : Kind) : list (Z * Z) :=
  match k with
  | Queen => Queen_deltas
  | Rook => Rook_deltas
  | Bishop => Bishop_deltas
  | _ => []
  end.

(** The squares the walk from the origin [(r, c)] reaches in direction
    [(dr, dc)]: the [n]-th square of the ray, when the squares before it
    are empty and it is itself empty or held by the other colour. *)
Definition ray_reaches (p : Piece) (b : Board) (r c dr dc : Z) (sq : Z * Z)
  : Prop :=
  exists n : nat,
    (1 <= n)%nat /\
    sq = (r + Z.of_nat n * dr, c + Z.of_nat n * dc) /\
    (forall j : nat, (1 <= j < n)%nat ->
       empty_square b (r + Z.of_nat j * dr) (c + Z.of_nat j * dc)) /\
    (empty_square b (fst sq) (snd sq) \/ opponent_square p b (fst sq) (snd sq)).

(** A White rook on d4 and a pawn of colour [col] on d6, nothing else. *)
Definition rook_d4_board (col : Color) : Board :=
  set_cell (set_cell empty_board 4 3 (Some (mkPiece Rook WHITE)))
           2 3 (Some (mkPiece Pawn col)).

(** The history entry [f"{parts[0]} -> {parts[1]}"]. *)
Definition history_entry (p0 p1 : string) : string :=
  (p0 ++ " -> " ++ p1)%string.

(** The game after an applied move: entry appended, then the turn switched. *)
Definition applied (g : Game) (b' : Board) (p0 p1 : string) : Game :=
  Game_switch_turn
    (mkGame b' (turn g) (history g ++ [history_entry p0 p1]) (running g)).

(** A new game with nothing printed yet. *)
Definition opening_world : World :=
  mkWorld (mkGame initial_board WHITE [] true) [].

(** Indices Python accepts on a list of eight items. *)
Definition index_ok (i : Z) : Prop := -8 <= i < 8.

(** One if the occupant is a piece of colour [col], zero otherwise. *)
Definition occ (t : option Piece) (col : Color) : nat :=
  match t with
  | Some p => if Color_eqb (color p) col then 1 else 0
  | None => 0
  end.

(** No White pawn stands on row 0 and no Black pawn on row 7. *)
Definition no_pawn_on_last_rank (b : Board) : Prop :=
  forall c, 0 <= c < 8 ->
    Board_at b 0 c <> Ret (Some (mkPiece Pawn WHITE)) /\
    Board_at b 7 c <> Ret (Some (mkPiece Pawn BLACK)).

(** One move played in the game [g]: the two names parse, the source holds
    a piece of the side to move, [Board.move] accepts, and [g'] is [g] with
    the board moved, the entry appended and the turn switched. *)
Definition played (fuel : nat) (g g' : Game) : Prop :=
  exists p0 p1 r1 c1 r2 c2 p b',
    algebraic_to_rc p0 = Ret (Some (r1, c1)) /\
    algebraic_to_rc p1 = Ret (Some (r2, c2)) /\
    Board_at (board g) r1 c1 = Ret (Some p) /\
    color p = turn g /\
    Board_move fuel (r1, c1) (r2, c2) (board g) = (Ret (true, EmptyString), b') /\
    g' = applied g b' p0 p1.

(** The commands that end the loop. *)
Definition is_quit (raw : string) : bool :=
  String.eqb raw "quit" || String.eqb raw "exit".

(** A string of whitespace only. *)
Fixpoint all_space (s : string) : bool :=
  match s with
  | EmptyString => true
  | String a s' => is_space a && all_space s'
  end.

(** A history entry written by the loop: two square names around [" -> "]. *)
Definition move_entry (e : string) : Prop :=
  exists p0 p1,
    e = (p0 ++ " -> " ++ p1)%string /\
    valid_square_text p0 /\ valid_square_text p1.



(** * Properties *)

(** ** Lists and the grid *)

Lemma norm_index_in_range (n : nat) (i : Z) :
  0 <= i < Z.of_nat n -> norm_index n i = Ret (Z.to_nat i).
Proof.
  intros H. unfold norm_index.
  destruct (Z.ltb_spec i 0); [lia|].
  destruct (Z.leb_spec 0 i); [|lia].
  destruct (Z.ltb_spec i (Z.of_nat n)); [|lia].
  reflexivity.
Qed.

Lemma list_getitem_in_range {A : Type} (l : list A) (i : Z) (d : A) :
  0 <= i < Z.of_nat (List.length l) ->
  list_getitem l i = Ret (nth (Z.to_nat i) l d).
Proof.
  intros H. unfold list_getitem.
  rewrite norm_index_in_range by assumption. simpl.
  rewrite (nth_error_nth' l d) by lia. reflexivity.
Qed.

Lemma list_setitem_in_range {A : Type} (l : list A) (i : Z) (x : A) :
  0 <= i < Z.of_nat (List.length l) ->
  list_setitem l i x = Ret (replace_nth l (Z.to_nat i) x).
Proof.
  intros H. unfold list_setitem.
  rewrite norm_index_in_range by assumption. reflexivity.
Qed.

Lemma replace_nth_length {A : Type} (l : list A) (j : nat) (x : A) :
  List.length (replace_nth l j x) = List.length l.
Proof.
  revert j. induction l as [|h t IH]; intros [|j]; simpl; auto.
Qed.

Lemma replace_nth_nth {A : Type} (l : list A) (j k : nat) (x d : A) :
  (j < List.length l)%nat ->
  nth k (replace_nth l j x) d = if Nat.eqb k j then x else nth k l d.
Proof.
  revert j k. induction l as [|h t IH]; intros j k Hj; simpl in Hj; [lia|].
  destruct j as [|j], k as [|k]; simpl; auto.
  apply IH. lia.
Qed.

Lemma replace_nth_Forall {A : Type} (P : A -> Prop) (l : list A) (j : nat) (x : A) :
  Forall P l -> P x -> Forall P (replace_nth l j x).
Proof.
  intros Hl Hx. revert j.
  induction Hl as [|h t Hh Ht IH]; intros [|j]; simpl; auto.
Qed.

Lemma in_bounds_iff (r c : Z) :
  in_bounds r c = true <-> 0 <= r < 8 /\ 0 <= c < 8.
Proof.
  unfold in_bounds.
  rewrite !andb_true_iff, !Z.leb_le, !Z.ltb_lt. lia.
Qed.


Lemma wf_row_length (b : Board) (r : Z) :
  wf_board b -> 0 <= r < 8 ->
  List.length (nth (Z.to_nat r) (grid b) []) = 8%nat.
Proof.
  intros [Hl Hr] H.
  rewrite Forall_forall in Hr. apply Hr. apply nth_In. lia.
Qed.

Lemma Board_at_cell (b : Board) (r c : Z) :
  wf_board b -> in_bounds r c = true -> Board_at b r c = Ret (cell b r c).
Proof.
  intros Hwf Hb. apply in_bounds_iff in Hb. destruct Hb as [Hr Hc].
  pose proof (wf_row_length b r Hwf Hr) as Hlen.
  destruct Hwf as [Hl _].
  unfold Board_at, cell.
  rewrite (list_getitem_in_range (grid b) r []) by lia. simpl.
  apply list_getitem_in_range. lia.
Qed.

Lemma grid_setitem_set_cell (b : Board) (r c : Z) (v : option Piece) :
  wf_board b -> in_bounds r c = true ->
  grid_setitem b r c v = Ret (set_cell b r c v).
Proof.
  intros Hwf Hb. apply in_bounds_iff in Hb. destruct Hb as [Hr Hc].
  pose proof (wf_row_length b r Hwf Hr) as Hlen.
  destruct Hwf as [Hl _].
  unfold grid_setitem, set_cell.
  rewrite (list_getitem_in_range (grid b) r []) by lia. simpl.
  rewrite list_setitem_in_range by lia. simpl.
  rewrite list_setitem_in_range by lia. reflexivity.
Qed.

Lemma set_cell_wf (b : Board) (r c : Z) (v : option Piece) :
  wf_board b -> in_bounds r c = true -> wf_board (set_cell b r c v).
Proof.
  intros Hwf Hb. apply in_bounds_iff in Hb. destruct Hb as [Hr Hc].
  pose proof (wf_row_length b r Hwf Hr) as Hlen.
  destruct Hwf as [Hl Hrows].
  split; simpl.
  - rewrite replace_nth_length. assumption.
  - apply replace_nth_Forall; [assumption|].
    rewrite replace_nth_length. assumption.
Qed.

Lemma cell_set_cell (b : Board) (r c r' c' : Z) (v : option Piece) :
  wf_board b -> in_bounds r c = true -> in_bounds r' c' = true ->
  cell (set_cell b r c v) r' c' =
  if (r' =? r) && (c' =? c) then v else cell b r' c'.
Proof.
  intros Hwf Hb Hb'.
  apply in_bounds_iff in Hb. destruct Hb as [Hr Hc].
  apply in_bounds_iff in Hb'. destruct Hb' as [Hr' Hc'].
  pose proof (wf_row_length b r Hwf Hr) as Hlen.
  destruct Hwf as [Hl Hrows].
  unfold cell, set_cell. simpl.
  rewrite replace_nth_nth by lia.
  destruct (Z.eqb_spec r' r) as [->|Hne].
  - rewrite Nat.eqb_refl. rewrite replace_nth_nth by lia.
    destruct (Z.eqb_spec c' c) as [->|Hne'].
    + rewrite Nat.eqb_refl. reflexivity.
    + destruct (Nat.eqb_spec (Z.to_nat c') (Z.to_nat c)); [lia|reflexivity].
  - destruct (Nat.eqb_spec (Z.to_nat r') (Z.to_nat r)); [lia|reflexivity].
Qed.

(** ** Loops that collect squares *)

Lemma bind_Ret_inv {A B : Type} (m : outcome A) (k : A -> outcome B) (y : B) :
  bind m k = Ret y -> exists a, m = Ret a /\ k a = Ret y.
Proof.
  destruct m as [a| |]; simpl; intros H; try discriminate.
  exists a. split; [reflexivity|assumption].
Qed.

Lemma for_each_In {A B : Type} (xs : list A) (body : A -> outcome (list B))
  (ms : list B) :
  for_each xs body = Ret ms ->
  forall y, In y ms <-> exists x ms', In x xs /\ body x = Ret ms' /\ In y ms'.
Proof.
  revert ms. induction xs as [|x xs IH]; intros ms H y; simpl in H.
  - inversion H; subst. split; [intros []|intros (x & ms' & [] & _)].
  - apply bind_Ret_inv in H. destruct H as (here & Hhere & H).
    apply bind_Ret_inv in H. destruct H as (rest & Hrest & H).
    inversion H; subst; clear H.
    rewrite in_app_iff, (IH rest Hrest y). split.
    + intros [Hy|(x' & ms' & Hx' & Hb & Hy)].
      * exists x, here. simpl. auto.
      * exists x', ms'. simpl. auto.
    + intros (x' & ms' & [Hx'|Hx'] & Hb & Hy).
      * subst x'. left. congruence.
      * right. exists x', ms'. auto.
Qed.

Lemma for_each_total {A B : Type} (xs : list A) (body : A -> outcome (list B)) :
  (forall x, In x xs -> exists ms, body x = Ret ms) ->
  exists ms, for_each xs body = Ret ms.
Proof.
  induction xs as [|x xs IH]; intros H; simpl.
  - eexists; reflexivity.
  - destruct (H x (or_introl eq_refl)) as [here Hhere].
    destruct IH as [rest Hrest]; [intros; apply H; right; assumption|].
    rewrite Hhere, Hrest. simpl. eexists; reflexivity.
Qed.

(** ** Where a piece may land *)

Lemma walk_reach_here (self : Piece) (b : Board) (rr cc dr dc : Z) :
  landable self b (rr, cc) -> walk_reach self b rr cc dr dc (rr, cc).
Proof.
  intros H. exists 0%nat. split; [f_equal; lia|]. split; [lia|assumption].
Qed.

Lemma walk_reach_next (self : Piece) (b : Board) (rr cc dr dc : Z) (sq : Z * Z) :
  in_bounds rr cc = true -> cell b rr cc = None ->
  walk_reach self b (rr + dr) (cc + dc) dr dc sq ->
  walk_reach self b rr cc dr dc sq.
Proof.
  intros Hb Hc (k & Hsq & Hpath & Hland).
  exists (S k). split; [subst sq; f_equal; lia|]. split; [|assumption].
  intros [|j] Hj.
  - replace (rr + Z.of_nat 0 * dr) with rr by lia.
    replace (cc + Z.of_nat 0 * dc) with cc by lia. auto.
  - destruct (Hpath j ltac:(lia)) as [H1 H2].
    replace (rr + Z.of_nat (S j) * dr) with (rr + dr + Z.of_nat j * dr) by lia.
    replace (cc + Z.of_nat (S j) * dc) with (cc + dc + Z.of_nat j * dc) by lia.
    auto.
Qed.

Lemma walk_reach_inv (self : Piece) (b : Board) (rr cc dr dc : Z) (sq : Z * Z) :
  walk_reach self b rr cc dr dc sq ->
  (sq = (rr, cc) /\ landable self b (rr, cc)) \/
  (in_bounds rr cc = true /\ cell b rr cc = None /\
   walk_reach self b (rr + dr) (cc + dc) dr dc sq).
Proof.
  intros (k & Hsq & Hpath & Hland). destruct k as [|k].
  - left. assert (sq = (rr, cc)) as -> by (subst sq; f_equal; lia). auto.
  - right. destruct (Hpath 0%nat ltac:(lia)) as [H1 H2].
    replace (rr + Z.of_nat 0 * dr) with rr in * by lia.
    replace (cc + Z.of_nat 0 * dc) with cc in * by lia.
    split; [assumption|]. split; [assumption|].
    exists k. split; [subst sq; f_equal; lia|]. split; [|assumption].
    intros j Hj. destruct (Hpath (S j) ltac:(lia)) as [H3 H4].
    replace (rr + dr + Z.of_nat j * dr) with (rr + Z.of_nat (S j) * dr) by lia.
    replace (cc + dc + Z.of_nat j * dc) with (cc + Z.of_nat (S j) * dc) by lia.
    auto.
Qed.

Lemma line_walk_In (fuel : nat) (self : Piece) (b : Board) (dr dc : Z) :
  wf_board b ->
  forall rr cc ms,
    line_walk fuel self b rr cc dr dc = Ret ms ->
    forall sq, In sq ms <-> walk_reach self b rr cc dr dc sq.
Proof.
  intros Hwf. induction fuel as [|n IH]; intros rr cc ms H sq; simpl in H.
  - discriminate.
  - destruct (in_bounds rr cc) eqn:Hb.
    + rewrite (Board_at_cell b rr cc Hwf Hb) in H. simpl in H.
      destruct (cell b rr cc) as [t|] eqn:Hc.
      * destruct (is_opponent self (Some t)) eqn:Hopp;
          inversion H; subst; clear H; simpl; split.
        -- intros [<-|[]]. apply walk_reach_here.
           split; simpl; [assumption|]. rewrite Hc. auto.
        -- intros Hr. apply walk_reach_inv in Hr.
           destruct Hr as [[-> _]|(_ & Hnone & _)]; [auto|congruence].
        -- intros [].
        -- intros Hr. apply walk_reach_inv in Hr.
           destruct Hr as [[_ (_ & Hland)]|(_ & Hnone & _)]; cbn [fst snd] in *.
           ++ rewrite Hc in Hland. destruct Hland; congruence.
           ++ congruence.
      * apply bind_Ret_inv in H. destruct H as (rest & Hrest & H).
        inversion H; subst; clear H. simpl.
        rewrite (IH _ _ _ Hrest sq). split.
        -- intros [<-|Hr].
           ++ apply walk_reach_here. split; simpl; auto.
           ++ apply walk_reach_next; assumption.
        -- intros Hr. apply walk_reach_inv in Hr.
           destruct Hr as [[-> _]|(_ & _ & Hr)]; auto.
    + inversion H; subst; clear H. simpl. split; [intros []|].
      intros Hr. apply walk_reach_inv in Hr.
      destruct Hr as [[_ (Hin & _)]|(Hin & _)]; cbn [fst snd] in *; congruence.
Qed.

Lemma line_walk_total_aux (self : Piece) (b : Board) (dr dc : Z) :
  wf_board b -> unit_step dr dc ->
  forall fuel rr cc,
    (0 < fuel)%nat ->
    (in_bounds rr cc = true -> steps_left rr cc dr dc < Z.of_nat fuel) ->
    exists ms, line_walk fuel self b rr cc dr dc = Ret ms.
Proof.
  intros Hwf Hd. induction fuel as [|n IH]; intros rr cc Hpos Hm; [lia|].
  simpl. destruct (in_bounds rr cc) eqn:Hb; [|eexists; reflexivity].
  specialize (Hm eq_refl).
  rewrite (Board_at_cell b rr cc Hwf Hb). simpl.
  destruct (cell b rr cc) as [t|].
  - destruct (is_opponent self (Some t)); eexists; reflexivity.
  - apply in_bounds_iff in Hb.
    destruct (IH (rr + dr) (cc + dc)) as [rest Hrest].
    + unfold steps_left, unit_step in *.
      destruct (Z.eqb_spec dr 1), (Z.eqb_spec dr (-1)), (Z.eqb_spec dc 1); lia.
    + intros Hb'. apply in_bounds_iff in Hb'.
      unfold steps_left, unit_step in *.
      destruct (Z.eqb_spec dr 1), (Z.eqb_spec dr (-1)), (Z.eqb_spec dc 1); lia.
    + rewrite Hrest. simpl. eexists; reflexivity.
Qed.

Lemma line_walk_total (fuel : nat) (self : Piece) (b : Board) (rr cc dr dc : Z) :
  wf_board b -> unit_step dr dc -> (8 < fuel)%nat ->
  exists ms, line_walk fuel self b rr cc dr dc = Ret ms.
Proof.
  intros Hwf Hd Hfuel. apply line_walk_total_aux; try assumption; [lia|].
  intros Hb. apply in_bounds_iff in Hb.
  unfold steps_left, unit_step in *.
  destruct (Z.eqb_spec dr 1), (Z.eqb_spec dr (-1)), (Z.eqb_spec dc 1); lia.
Qed.

Lemma line_moves_spec (fuel : nat) (self : Piece) (b : Board) (r c : Z)
  (deltas : list (Z * Z)) :
  wf_board b -> (8 < fuel)%nat ->
  (forall dr dc, In (dr, dc) deltas -> unit_step dr dc) ->
  exists ms,
    line_moves fuel self b r c deltas = Ret ms /\
    forall sq, In sq ms <->
      exists dr dc, In (dr, dc) deltas /\
                    walk_reach self b (r + dr) (c + dc) dr dc sq.
Proof.
  intros Hwf Hfuel Hd. unfold line_moves.
  destruct (for_each_total deltas
              (fun '(dr, dc) => line_walk fuel self b (r + dr) (c + dc) dr dc))
    as [ms Hms].
  { intros [dr dc] Hin. apply line_walk_total; auto. }
  exists ms. split; [assumption|]. intros sq.
  rewrite (for_each_In _ _ _ Hms sq). split.
  - intros ([dr dc] & ms' & Hin & Hw & Hsq).
    exists dr, dc. split; [assumption|].
    apply (line_walk_In fuel self b dr dc Hwf _ _ _ Hw). assumption.
  - intros (dr & dc & Hin & Hr).
    destruct (line_walk_total fuel self b (r + dr) (c + dc) dr dc Hwf
                (Hd dr dc Hin) Hfuel) as [ms' Hw].
    exists (dr, dc), ms'. split; [assumption|]. split; [assumption|].
    apply (line_walk_In fuel self b dr dc Hwf _ _ _ Hw). assumption.
Qed.

Lemma leap_spec (self : Piece) (b : Board) (r c dr dc : Z) :
  wf_board b ->
  exists ms,
    leap self b r c dr dc = Ret ms /\
    forall sq, In sq ms <-> sq = (r + dr, c + dc) /\ landable self b sq.
Proof.
  intros Hwf. unfold leap, landable.
  destruct (in_bounds (r + dr) (c + dc)) eqn:Hb.
  - rewrite (Board_at_cell b _ _ Hwf Hb). simpl.
    destruct (cell b (r + dr) (c + dc)) as [t|] eqn:Hc.
    + destruct (is_opponent self (Some t)) eqn:Hopp; eexists;
        (split; [reflexivity|]); intros sq; simpl; split.
      * intros [<-|[]]. cbn [fst snd]. rewrite Hc. auto.
      * intros [-> _]. auto.
      * intros [].
      * intros [-> (_ & H)]. cbn [fst snd] in H. rewrite Hc in H.
        destruct H; congruence.
    + eexists. split; [reflexivity|]. intros sq. simpl. split.
      * intros [<-|[]]. cbn [fst snd]. auto.
      * intros [-> _]. auto.
  - eexists. split; [reflexivity|]. intros sq. simpl. split; [intros []|].
    intros [-> (H & _)]. cbn [fst snd] in H. congruence.
Qed.

Lemma King_row_total (self : Piece) (b : Board) (r c dr : Z) :
  wf_board b ->
  exists ms,
    for_each [-1; 0; 1] (fun dc =>
      if (dr =? 0) && (dc =? 0) then Ret [] else leap self b r c dr dc) = Ret ms.
Proof.
  intros Hwf. apply for_each_total. intros dc _.
  destruct ((dr =? 0) && (dc =? 0)); [eexists; reflexivity|].
  destruct (leap_spec self b r c dr dc Hwf) as (ms & H & _). eauto.
Qed.

Lemma King_moves_spec (self : Piece) (b : Board) (r c : Z) :
  wf_board b ->
  exists ms,
    King_moves self b r c = Ret ms /\
    forall sq, In sq ms <->
      exists dr dc, unit_step dr dc /\ sq = (r + dr, c + dc) /\ landable self b sq.
Proof.
  intros Hwf. unfold King_moves.
  match goal with |- exists ms, for_each ?xs ?f = _ /\ _ =>
    destruct (for_each_total xs f) as [ms Hms] end.
  { intros dr _. apply King_row_total. assumption. }
  exists ms. split; [assumption|]. intros sq.
  rewrite (for_each_In _ _ _ Hms sq). split.
  - intros (dr & ms1 & Hdr & Hin1 & Hsq).
    rewrite (for_each_In _ _ _ Hin1 sq) in Hsq.
    destruct Hsq as (dc & ms2 & Hdc & Hin2 & Hsq).
    destruct ((dr =? 0) && (dc =? 0)) eqn:Hz.
    + inversion Hin2; subst. destruct Hsq.
    + destruct (leap_spec self b r c dr dc Hwf) as (ms' & H & Hspec).
      rewrite H in Hin2. inversion Hin2; subst.
      apply Hspec in Hsq. destruct Hsq as [-> Hland].
      exists dr, dc. split; [|auto].
      apply andb_false_iff in Hz. rewrite !Z.eqb_neq in Hz.
      simpl in Hdr, Hdc. unfold unit_step. lia.
  - intros (dr & dc & (Hdr & Hdc & Hnz) & -> & Hland).
    destruct (leap_spec self b r c dr dc Hwf) as (ms' & H & Hspec).
    assert (Hz : (dr =? 0) && (dc =? 0) = false).
    { apply andb_false_iff. rewrite !Z.eqb_neq. lia. }
    destruct (King_row_total self b r c dr Hwf) as [ms1 Hms1].
    exists dr, ms1. split; [simpl; lia|]. split; [exact Hms1|].
    rewrite (for_each_In _ _ _ Hms1). exists dc, ms'.
    split; [simpl; lia|]. rewrite Hz. split; [exact H|].
    apply Hspec. auto.
Qed.

Lemma Knight_moves_spec (self : Piece) (b : Board) (r c : Z) :
  wf_board b ->
  exists ms,
    Knight_moves self b r c = Ret ms /\
    forall sq, In sq ms <->
      exists dr dc, In (dr, dc) Knight_deltas /\
                    sq = (r + dr, c + dc) /\ landable self b sq.
Proof.
  intros Hwf. unfold Knight_moves.
  match goal with |- exists ms, for_each ?xs ?f = _ /\ _ =>
    destruct (for_each_total xs f) as [ms Hms] end.
  { intros [dr dc] _.
    destruct (leap_spec self b r c dr dc Hwf) as (ms & H & _). eauto. }
  exists ms. split; [assumption|]. intros sq.
  rewrite (for_each_In _ _ _ Hms sq). split.
  - intros ([dr dc] & ms' & Hin & Hl & Hsq).
    destruct (leap_spec self b r c dr dc Hwf) as (ms2 & H & Hspec).
    rewrite H in Hl. inversion Hl; subst.
    apply Hspec in Hsq. destruct Hsq as [-> Hland].
    exists dr, dc. auto.
  - intros (dr & dc & Hin & -> & Hland).
    destruct (leap_spec self b r c dr dc Hwf) as (ms' & H & Hspec).
    exists (dr, dc), ms'. split; [assumption|]. split; [exact H|].
    apply Hspec. auto.
Qed.

Lemma Pawn_moves_spec (self : Piece) (b : Board) (r c : Z) :
  wf_board b ->
  let d := pawn_dir (color self) in
  exists ms,
    Pawn_moves self b r c = Ret ms /\
    forall sq, In sq ms <->
      (sq = (r + d, c) /\ vacant b (r + d) c) \/
      (sq = (r + 2 * d, c) /\ r = pawn_start (color self) /\
       vacant b (r + d) c /\ vacant b (r + 2 * d) c) \/
      (exists dc, (dc = -1 \/ dc = 1) /\ sq = (r + d, c + dc) /\
                  in_bounds (r + d) (c + dc) = true /\
                  is_opponent self (cell b (r + d) (c + dc)) = true).
Proof.
  intros Hwf d. unfold Pawn_moves.
  fold (pawn_dir (color self)) (pawn_start (color self)). fold d.
  cbn [fst snd].
  (* the forward squares *)
  match goal with |- exists ms, bind ?m _ = _ /\ _ =>
    assert (Hf : exists fw, m = Ret fw /\
              forall sq, In sq fw <->
                (sq = (r + d, c) /\ vacant b (r + d) c) \/
                (sq = (r + 2 * d, c) /\ r = pawn_start (color self) /\
                 vacant b (r + d) c /\ vacant b (r + 2 * d) c)) end.
  { unfold vacant. remember (r + 2 * d) as r2 eqn:Hr2.
    destruct (in_bounds (r + d) c) eqn:Hb1.
    - rewrite (Board_at_cell b _ _ Hwf Hb1). simpl.
      destruct (cell b (r + d) c) as [t1|] eqn:Hc1.
      + eexists. split; [reflexivity|]. intros sq. simpl.
        split; [intros []|]. intros [(_ & _ & H)|(_ & _ & (_ & H) & _)]; congruence.
      + destruct (Z.eqb_spec r (pawn_start (color self))) as [Hs|Hs]; simpl.
        * destruct (in_bounds r2 c) eqn:Hb2.
          -- rewrite (Board_at_cell b _ _ Hwf Hb2). simpl.
             destruct (cell b r2 c) as [t2|] eqn:Hc2;
               (eexists; split; [reflexivity|]); intros sq; simpl; split.
             ++ intros [<-|[]]. auto.
             ++ intros [(-> & _)|(_ & _ & _ & _ & H)]; [auto|congruence].
             ++ intros [<-|[<-|[]]]; auto 10.
             ++ intros [(-> & _)|(-> & _)]; auto.
          -- eexists. split; [reflexivity|]. intros sq. simpl. split.
             ++ intros [<-|[]]. auto.
             ++ intros [(-> & _)|(_ & _ & _ & H & _)]; [auto|congruence].
        * eexists. split; [reflexivity|]. intros sq. simpl. split.
          -- intros [<-|[]]. auto.
          -- intros [(-> & _)|(_ & H & _)]; [auto|congruence].
    - eexists. split; [reflexivity|]. intros sq. simpl.
      split; [intros []|]. intros [(_ & H & _)|(_ & _ & (H & _) & _)]; congruence. }
  destruct Hf as (fw & Hfw & Hfspec). rewrite Hfw. cbn [bind].
  (* the two capture squares *)
  match goal with |- exists ms, bind (for_each ?xs ?f) _ = _ /\ _ =>
    assert (Hbody : forall dc, exists ms', f dc = Ret ms' /\
              forall sq, In sq ms' <->
                sq = (r + d, c + dc) /\ in_bounds (r + d) (c + dc) = true /\
                is_opponent self (cell b (r + d) (c + dc)) = true);
    [|destruct (for_each_total xs f) as [dg Hdg];
      [intros dc _; destruct (Hbody dc) as (ms' & H & _); eauto|]] end.
  { intros dc. cbv beta.
    destruct (in_bounds (r + d) (c + dc)) eqn:Hb.
    - rewrite (Board_at_cell b _ _ Hwf Hb). simpl.
      destruct (is_opponent self (cell b (r + d) (c + dc))) eqn:Ho;
        (eexists; split; [reflexivity|]); intros sq; simpl; split.
      + intros [<-|[]]. auto.
      + intros (-> & _). auto.
      + intros [].
      + intros (_ & _ & H). congruence.
    - eexists. split; [reflexivity|]. intros sq. simpl.
      split; [intros []|]. intros (_ & H & _). congruence. }
  rewrite Hdg. cbn [bind]. eexists. split; [reflexivity|]. intros sq.
  rewrite in_app_iff, Hfspec, (for_each_In _ _ _ Hdg sq). split.
  - intros [[H|H]|(dc & ms' & Hdc & Hb & Hsq)]; auto.
    right. right. destruct (Hbody dc) as (ms2 & H2 & Hspec).
    rewrite H2 in Hb. inversion Hb; subst. apply Hspec in Hsq.
    exists dc. simpl in Hdc. intuition.
  - intros [H|[H|(dc & Hdc & Hsq)]]; auto.
    right. destruct (Hbody dc) as (ms2 & H2 & Hspec).
    exists dc, ms2. split; [simpl; intuition|]. split; [exact H2|].
    apply Hspec. destruct Hsq as (-> & ? & ?). auto.
Qed.

Lemma slide_deltas_unit (k : Kind) (dr dc : Z) :
  In (dr, dc) (match k with
               | Queen => Queen_deltas
               | Rook => Rook_deltas
               | Bishop => Bishop_deltas
               | _ => []
               end) ->
  unit_step dr dc.
Proof.
  unfold unit_step.
  destruct k; simpl; intros H;
    repeat (destruct H as [H|H]; [inversion H; subst; lia|]); destruct H.
Qed.

Lemma walk_reach_landable (self : Piece) (b : Board) (rr cc dr dc : Z) (sq : Z * Z) :
  walk_reach self b rr cc dr dc sq -> landable self b sq.
Proof. intros (k & _ & _ & H). exact H. Qed.

(** Every piece's generator returns on a well-formed board, and every
    square it yields is on the board and not held by the mover's colour. *)
Lemma pseudo_legal_moves_total (fuel : nat) (p : Piece) (b : Board) (r c : Z) :
  wf_board b -> (8 < fuel)%nat ->
  exists ms,
    pseudo_legal_moves fuel p b r c = Ret ms /\
    forall sq, In sq ms -> landable p b sq.
Proof.
  intros Hwf Hfuel. unfold pseudo_legal_moves.
  pose proof (slide_deltas_unit (kind p)) as Hunit.
  destruct (kind p).
  - destruct (King_moves_spec p b r c Hwf) as (ms & H & Hs).
    exists ms. split; [assumption|]. intros sq Hin.
    apply Hs in Hin. destruct Hin as (dr & dc & _ & _ & Hl). exact Hl.
  - destruct (line_moves_spec fuel p b r c Queen_deltas Hwf Hfuel Hunit)
      as (ms & H & Hs).
    exists ms. split; [assumption|]. intros sq Hin.
    apply Hs in Hin. destruct Hin as (dr & dc & _ & Hr).
    eapply walk_reach_landable; eassumption.
  - destruct (line_moves_spec fuel p b r c Rook_deltas Hwf Hfuel Hunit)
      as (ms & H & Hs).
    exists ms. split; [assumption|]. intros sq Hin.
    apply Hs in Hin. destruct Hin as (dr & dc & _ & Hr).
    eapply walk_reach_landable; eassumption.
  - destruct (line_moves_spec fuel p b r c Bishop_deltas Hwf Hfuel Hunit)
      as (ms & H & Hs).
    exists ms. split; [assumption|]. intros sq Hin.
    apply Hs in Hin. destruct Hin as (dr & dc & _ & Hr).
    eapply walk_reach_landable; eassumption.
  - destruct (Knight_moves_spec p b r c Hwf) as (ms & H & Hs).
    exists ms. split; [assumption|]. intros sq Hin.
    apply Hs in Hin. destruct Hin as (dr & dc & _ & _ & Hl). exact Hl.
  - destruct (Pawn_moves_spec p b r c Hwf) as (ms & H & Hs).
    exists ms. split; [assumption|]. intros sq Hin.
    apply Hs in Hin. unfold landable, vacant in *.
    destruct Hin as [(-> & Hb & Hc)|[(-> & _ & _ & Hb & Hc)|(dc & _ & -> & Hb & Ho)]];
      cbn [fst snd]; auto.
Qed.

(** ** [Board.move] on a well-formed board *)

Lemma Color_eqb_eq (a b : Color) : Color_eqb a b = true <-> a = b.
Proof. destruct a, b; simpl; split; intros; congruence. Qed.

Lemma mem_sq_In (sq : Z * Z) (ms : list (Z * Z)) :
  mem_sq sq ms = true <-> In sq ms.
Proof.
  unfold mem_sq. rewrite existsb_exists. split.
  - intros ([r c] & Hin & H). apply andb_true_iff in H.
    rewrite !Z.eqb_eq in H. cbn [fst snd] in H. destruct sq as [r' c'].
    cbn [fst snd] in H. destruct H; subst. assumption.
  - intros Hin. exists sq. split; [assumption|].
    rewrite !Z.eqb_refl. reflexivity.
Qed.

Lemma Board_move_unfold (fuel : nat) (b : Board) (r1 c1 r2 c2 : Z) :
  wf_board b -> in_bounds r1 c1 = true -> in_bounds r2 c2 = true ->
  Board_move fuel (r1, c1) (r2, c2) b =
  match cell b r1 c1 with
  | None => (Ret (false, EmptyString), b)
  | Some p =>
      if same_color_at p (cell b r2 c2) then (Ret (false, EmptyString), b)
      else
        match pseudo_legal_moves fuel p b r1 c1 with
        | Ret ms =>
            if mem_sq (r2, c2) ms
            then (Ret (true, EmptyString), moved_board b r1 c1 r2 c2 p)
            else (Ret (false, EmptyString), b)
        | Raise e => (Raise e, b)
        | OutOfFuel => (OutOfFuel, b)
        end
  end.
Proof.
  intros Hwf H1 H2.
  unfold Board_move, sbind, reading, sret, updating.
  rewrite (Board_at_cell b r1 c1 Hwf H1).
  destruct (cell b r1 c1) as [p|]; [|reflexivity].
  rewrite (Board_at_cell b r2 c2 Hwf H2).
  fold (same_color_at p (cell b r2 c2)).
  destruct (same_color_at p (cell b r2 c2)); [reflexivity|].
  destruct (pseudo_legal_moves fuel p b r1 c1) as [ms| |]; try reflexivity.
  destruct (mem_sq (r2, c2) ms); [|reflexivity]. cbn [negb].
  pose proof (set_cell_wf b r2 c2 (Some p) Hwf H2) as Hwf1.
  pose proof (set_cell_wf _ r1 c1 None Hwf1 H1) as Hwf2.
  rewrite (grid_setitem_set_cell b r2 c2 (Some p) Hwf H2).
  rewrite (grid_setitem_set_cell _ r1 c1 None Hwf1 H1).
  unfold moved_board. fold (promotes p r2).
  destruct (promotes p r2); [|reflexivity].
  rewrite (grid_setitem_set_cell _ r2 c2 _ Hwf2 H2). reflexivity.
Qed.

Lemma moved_board_wf (b : Board) (r1 c1 r2 c2 : Z) (p : Piece) :
  wf_board b -> in_bounds r1 c1 = true -> in_bounds r2 c2 = true ->
  wf_board (moved_board b r1 c1 r2 c2 p).
Proof.
  intros Hwf H1 H2. unfold moved_board.
  destruct (promotes p r2); repeat apply set_cell_wf; assumption.
Qed.

Lemma cell_moved_board (b : Board) (r1 c1 r2 c2 r c : Z) (p : Piece) :
  wf_board b -> in_bounds r1 c1 = true -> in_bounds r2 c2 = true ->
  in_bounds r c = true -> (r1, c1) <> (r2, c2) ->
  cell (moved_board b r1 c1 r2 c2 p) r c =
  if (r =? r2) && (c =? c2)
  then Some (if promotes p r2 then mkPiece Queen (color p) else p)
  else if (r =? r1) && (c =? c1) then None else cell b r c.
Proof.
  intros Hwf H1 H2 H Hne.
  pose proof (set_cell_wf b r2 c2 (Some p) Hwf H2) as Hwf1.
  pose proof (set_cell_wf _ r1 c1 None Hwf1 H1) as Hwf2.
  unfold moved_board.
  destruct (promotes p r2);
    repeat (rewrite cell_set_cell by assumption);
    destruct (Z.eqb_spec r r2), (Z.eqb_spec c c2),
             (Z.eqb_spec r r1), (Z.eqb_spec c c1);
    subst; cbn [andb]; try reflexivity; congruence.
Qed.

(** A move accepted on a well-formed board: the mover, and the grid after. *)
Lemma Board_move_accepted (fuel : nat) (b b' : Board) (r1 c1 r2 c2 : Z)
  (msg : string) :
  wf_board b -> in_bounds r1 c1 = true -> in_bounds r2 c2 = true ->
  Board_move fuel (r1, c1) (r2, c2) b = (Ret (true, msg), b') ->
  exists p ms,
    cell b r1 c1 = Some p /\
    same_color_at p (cell b r2 c2) = false /\
    pseudo_legal_moves fuel p b r1 c1 = Ret ms /\
    In (r2, c2) ms /\
    (r1, c1) <> (r2, c2) /\
    msg = EmptyString /\
    b' = moved_board b r1 c1 r2 c2 p.
Proof.
  intros Hwf H1 H2 H.
  rewrite (Board_move_unfold fuel b r1 c1 r2 c2 Hwf H1 H2) in H.
  destruct (cell b r1 c1) as [p|] eqn:Hp; [|discriminate].
  destruct (same_color_at p (cell b r2 c2)) eqn:Hsame; [discriminate|].
  destruct (pseudo_legal_moves fuel p b r1 c1) as [ms| |] eqn:Hms;
    try discriminate.
  destruct (mem_sq (r2, c2) ms) eqn:Hmem; [|discriminate].
  inversion H; subst. exists p, ms.
  repeat split; try assumption; try reflexivity.
  - apply mem_sq_In. assumption.
  - intros Heq. inversion Heq; subst. rewrite Hp in Hsame.
    simpl in Hsame. destruct (color p); discriminate.
Qed.

Lemma Board_at_Ret_iff (b : Board) (r c : Z) (x : option Piece) :
  wf_board b -> in_bounds r c = true ->
  (Board_at b r c = Ret x <-> cell b r c = x).
Proof.
  intros Hwf Hb. rewrite (Board_at_cell b r c Hwf Hb).
  split; intros H; congruence.
Qed.

Lemma same_color_at_true (p : Piece) (t : option Piece) :
  same_color_at p t = true <-> exists t', t = Some t' /\ color t' = color p.
Proof.
  unfold same_color_at. destruct t as [t'|].
  - rewrite Color_eqb_eq. split.
    + intros H. exists t'. auto.
    + intros (t'' & Ht & H). inversion Ht; subst. assumption.
  - split; [discriminate|]. intros (t' & Ht & _). discriminate.
Qed.

Lemma empty_board_wf : wf_board empty_board.
Proof. split; [reflexivity|]. repeat constructor. Qed.

Lemma initial_board_wf : wf_board initial_board.
Proof. split; [reflexivity|]. unfold initial_board, grid. repeat constructor. Qed.

(** * Main theorems *)

(** C1: on a well-formed board and for in-range squares, [Board.move]
    returns, and returns failure exactly when [src] holds no piece, or
    [dst] holds a piece of the mover's colour, or [dst] is not among the
    pseudo-legal moves of the piece at [src]; otherwise it returns success. *)
Theorem Board_move_fails_iff (fuel : nat) (b : Board) (r1 c1 r2 c2 : Z) :
  wf_board b -> (8 < fuel)%nat ->
  in_bounds r1 c1 = true -> in_bounds r2 c2 = true ->
  exists ok b',
    Board_move fuel (r1, c1) (r2, c2) b = (Ret (ok, EmptyString), b') /\
    (ok = false <->
     Board_at b r1 c1 = Ret None \/
     exists p, Board_at b r1 c1 = Ret (Some p) /\
       ((exists t, Board_at b r2 c2 = Ret (Some t) /\ color t = color p) \/
        (exists ms, pseudo_legal_moves fuel p b r1 c1 = Ret ms /\
                    ~ In (r2, c2) ms))).
Proof.
  intros Hwf Hfuel H1 H2.
  rewrite (Board_move_unfold fuel b r1 c1 r2 c2 Hwf H1 H2).
  rewrite !(Board_at_cell b _ _ Hwf) by assumption.
  destruct (cell b r1 c1) as [p|] eqn:Hp.
  - destruct (same_color_at p (cell b r2 c2)) eqn:Hsame.
    + exists false, b. split; [reflexivity|]. split; [|reflexivity].
      intros _. right. exists p. split; [reflexivity|]. left.
      apply same_color_at_true in Hsame. destruct Hsame as (t & Ht & Hc).
      exists t. rewrite Ht. auto.
    + destruct (pseudo_legal_moves_total fuel p b r1 c1 Hwf Hfuel)
        as (ms & Hms & _).
      rewrite Hms. destruct (mem_sq (r2, c2) ms) eqn:Hmem.
      * exists true, (moved_board b r1 c1 r2 c2 p).
        split; [reflexivity|]. split; [discriminate|].
        intros [H|(p' & Hp' & [(t & Ht & Hc)|(ms' & Hms' & Hnot)])].
        -- discriminate.
        -- inversion Hp'; subst p'. inversion Ht as [Ht'].
           rewrite Ht' in Hsame. simpl in Hsame.
           apply Color_eqb_eq in Hc. congruence.
        -- inversion Hp'; subst p'. rewrite Hms in Hms'.
           inversion Hms'; subst ms'. apply mem_sq_In in Hmem. contradiction.
      * exists false, b. split; [reflexivity|]. split; [|reflexivity].
        intros _. right. exists p. split; [reflexivity|]. right.
        exists ms. split; [exact Hms|]. rewrite <- mem_sq_In. congruence.
  - exists false, b. split; [reflexivity|]. split; [|reflexivity]. auto.
Qed.

Lemma Board_move_fails_iff_witness :
  exists ok b',
    Board_move 9 (6, 4) (4, 4) initial_board = (Ret (ok, EmptyString), b') /\
    (ok = false <->
     Board_at initial_board 6 4 = Ret None \/
     exists p, Board_at initial_board 6 4 = Ret (Some p) /\
       ((exists t, Board_at initial_board 4 4 = Ret (Some t) /\
                   color t = color p) \/
        (exists ms, pseudo_legal_moves 9 p initial_board 6 4 = Ret ms /\
                    ~ In (4, 4) ms))).
Proof.
  apply (Board_move_fails_iff 9 initial_board 6 4 4 4).
  - exact initial_board_wf.
  - lia.
  - reflexivity.
  - reflexivity.
Defined.

(** C2: whenever [Board.move] returns failure the board it leaves is the
    board it was given, so every square keeps its occupant; and a move from
    an occupied square onto a piece of the same colour returns failure and
    leaves the board unchanged. *)
Theorem Board_move_failure_unchanged (fuel : nat) (b : Board) (src dst : Z * Z) :
  (forall msg b',
     Board_move fuel src dst b = (Ret (false, msg), b') ->
     b' = b /\ forall r c, Board_at b' r c = Board_at b r c) /\
  (forall p t,
     Board_at b (fst src) (snd src) = Ret (Some p) ->
     Board_at b (fst dst) (snd dst) = Ret (Some t) ->
     color t = color p ->
     Board_move fuel src dst b = (Ret (false, EmptyString), b)).
Proof.
  destruct src as [r1 c1], dst as [r2 c2]. cbn [fst snd]. split.
  - intros msg b' H.
    assert (Hb : b' = b); [|subst; auto].
    unfold Board_move, sbind, reading, sret, updating in H.
    repeat match type of H with
           | context [match ?x with _ => _ end] => destruct x eqn:?
           end; inversion H; reflexivity.
  - intros p t Hp Ht Hc.
    unfold Board_move, sbind, reading, sret. rewrite Hp, Ht.
    apply Color_eqb_eq in Hc. rewrite Hc. reflexivity.
Qed.

Lemma Board_move_failure_unchanged_witness :
  Board_move 9 (7, 0) (6, 0) initial_board = (Ret (false, EmptyString), initial_board).
Proof.
  apply (proj2 (Board_move_failure_unchanged 9%nat initial_board (7, 0) (6, 0))
           (mkPiece Rook WHITE) (mkPiece Pawn WHITE));
    reflexivity.
Defined.

Lemma promotes_true (p : Piece) (r2 : Z) :
  promotes p r2 = true <->
  kind p = Pawn /\ (color p = WHITE /\ r2 = 0 \/ color p = BLACK /\ r2 = 7).
Proof.
  unfold promotes, isinstance.
  rewrite andb_true_iff, orb_true_iff, !andb_true_iff, !Color_eqb_eq, !Z.eqb_eq.
  destruct (kind p); split; intros [H1 H2]; split; auto; discriminate.
Qed.

(** C3: an accepted move empties [src] and puts the mover on [dst],
    whatever stood there; a pawn reaching row 0 (White) or row 7 (Black)
    is replaced on [dst] by a queen of its colour.  A White pawn on a7
    with a8 empty moves to a8 and leaves a White queen there and a7 empty. *)
Theorem Board_move_relocates_and_promotes (fuel : nat) (b : Board) :
  wf_board b ->
  (forall r1 c1 r2 c2 msg b',
     in_bounds r1 c1 = true -> in_bounds r2 c2 = true ->
     Board_move fuel (r1, c1) (r2, c2) b = (Ret (true, msg), b') ->
     exists p,
       Board_at b r1 c1 = Ret (Some p) /\
       Board_at b' r1 c1 = Ret None /\
       (kind p = Pawn /\ (color p = WHITE /\ r2 = 0 \/ color p = BLACK /\ r2 = 7) ->
        Board_at b' r2 c2 = Ret (Some (mkPiece Queen (color p)))) /\
       (~ (kind p = Pawn /\ (color p = WHITE /\ r2 = 0 \/ color p = BLACK /\ r2 = 7)) ->
        Board_at b' r2 c2 = Ret (Some p))) /\
  (forall a7 a8,
     algebraic_to_rc "a7" = Ret (Some a7) ->
     algebraic_to_rc "a8" = Ret (Some a8) ->
     Board_at b (fst a7) (snd a7) = Ret (Some (mkPiece Pawn WHITE)) ->
     Board_at b (fst a8) (snd a8) = Ret None ->
     exists b',
       Board_move fuel a7 a8 b = (Ret (true, EmptyString), b') /\
       Board_at b' (fst a8) (snd a8) = Ret (Some (mkPiece Queen WHITE)) /\
       Board_at b' (fst a7) (snd a7) = Ret None).
Proof.
  intros Hwf. split.
  - intros r1 c1 r2 c2 msg b' H1 H2 H.
    destruct (Board_move_accepted fuel b b' r1 c1 r2 c2 msg Hwf H1 H2 H)
      as (p & ms & Hp & _ & _ & _ & Hne & _ & ->).
    pose proof (moved_board_wf b r1 c1 r2 c2 p Hwf H1 H2) as Hwf'.
    exists p. rewrite !(Board_at_cell _ _ _ Hwf') by assumption.
    rewrite (Board_at_cell _ _ _ Hwf H1), Hp.
    rewrite !cell_moved_board by assumption.
    rewrite !Z.eqb_refl. cbn [andb].
    assert (Hsrc : (r1 =? r2) && (c1 =? c2) = false).
    { apply andb_false_iff. rewrite !Z.eqb_neq.
      destruct (Z.eq_dec r1 r2); [right|left]; congruence. }
    rewrite Hsrc. split; [reflexivity|]. split; [reflexivity|].
    pose proof (promotes_true p r2) as Hpr.
    destruct (promotes p r2); split; intros Hc; try reflexivity.
    + exfalso. apply Hc. apply Hpr. reflexivity.
    + apply Hpr in Hc. discriminate.
  - intros a7 a8 Ha7 Ha8. vm_compute in Ha7, Ha8.
    inversion Ha7; subst a7. inversion Ha8; subst a8. cbn [fst snd].
    intros Hpawn Hempty.
    assert (H1 : in_bounds 1 0 = true) by reflexivity.
    assert (H0 : in_bounds 0 0 = true) by reflexivity.
    apply (Board_at_Ret_iff b 1 0 _ Hwf H1) in Hpawn.
    apply (Board_at_Ret_iff b 0 0 _ Hwf H0) in Hempty.
    pose proof (moved_board_wf b 1 0 0 0 (mkPiece Pawn WHITE) Hwf H1 H0) as Hwf'.
    destruct (Pawn_moves_spec (mkPiece Pawn WHITE) b 1 0 Hwf) as (ms & Hms & Hspec).
    assert (Hin : In (0, 0) ms).
    { apply Hspec. left. split; [reflexivity|]. split; assumption. }
    exists (moved_board b 1 0 0 0 (mkPiece Pawn WHITE)).
    rewrite (Board_move_unfold fuel b 1 0 0 0 Hwf H1 H0).
    rewrite Hpawn, Hempty. cbn [same_color_at].
    change (pseudo_legal_moves fuel (mkPiece Pawn WHITE) b 1 0)
      with (Pawn_moves (mkPiece Pawn WHITE) b 1 0).
    rewrite Hms. apply mem_sq_In in Hin. rewrite Hin.
    split; [reflexivity|].
    rewrite !(Board_at_cell _ _ _ Hwf') by assumption.
    rewrite !cell_moved_board by (assumption || discriminate).
    split; reflexivity.
Qed.

Lemma Board_move_relocates_and_promotes_witness :
  exists b',
    Board_move 0 (1, 0) (0, 0)
      (set_cell empty_board 1 0 (Some (mkPiece Pawn WHITE)))
    = (Ret (true, EmptyString), b') /\
    Board_at b' 0 0 = Ret (Some (mkPiece Queen WHITE)) /\
    Board_at b' 1 0 = Ret None.
Proof.
  apply (proj2 (Board_move_relocates_and_promotes 0
                  (set_cell empty_board 1 0 (Some (mkPiece Pawn WHITE)))
                  (set_cell_wf empty_board 1 0 _ empty_board_wf eq_refl))
           (1, 0) (0, 0));
    reflexivity.
Defined.

(** C10: an accepted move changes the two squares [src] and [dst] only:
    every other square of the board keeps its occupant. *)
Theorem Board_move_frame (fuel : nat) (b b' : Board) (r1 c1 r2 c2 : Z)
  (msg : string) :
  wf_board b -> in_bounds r1 c1 = true -> in_bounds r2 c2 = true ->
  Board_move fuel (r1, c1) (r2, c2) b = (Ret (true, msg), b') ->
  forall r c,
    in_bounds r c = true -> (r, c) <> (r1, c1) -> (r, c) <> (r2, c2) ->
    Board_at b' r c = Board_at b r c.
Proof.
  intros Hwf H1 H2 H r c Hb Hn1 Hn2.
  destruct (Board_move_accepted fuel b b' r1 c1 r2 c2 msg Hwf H1 H2 H)
    as (p & ms & _ & _ & _ & _ & Hne & _ & ->).
  pose proof (moved_board_wf b r1 c1 r2 c2 p Hwf H1 H2) as Hwf'.
  rewrite (Board_at_cell _ _ _ Hwf' Hb), (Board_at_cell _ _ _ Hwf Hb).
  rewrite cell_moved_board by assumption.
  assert (Hd : (r =? r2) && (c =? c2) = false).
  { apply andb_false_iff. rewrite !Z.eqb_neq.
    destruct (Z.eq_dec r r2); [right|left]; congruence. }
  assert (Hs : (r =? r1) && (c =? c1) = false).
  { apply andb_false_iff. rewrite !Z.eqb_neq.
    destruct (Z.eq_dec r r1); [right|left]; congruence. }
  rewrite Hd, Hs. reflexivity.
Qed.

Lemma Board_move_frame_witness :
  Board_at (snd (Board_move 9 (6, 4) (4, 4) initial_board)) 7 4
  = Board_at initial_board 7 4.
Proof.
  apply (Board_move_frame 9 initial_board _ 6 4 4 4 EmptyString).
  - exact initial_board_wf.
  - reflexivity.
  - reflexivity.
  - vm_compute. reflexivity.
  - reflexivity.
  - discriminate.
  - discriminate.
Defined.

(** C7: [Board()] returns the standard starting position: 16 White and 16
    Black pieces, White pawns on row 6 and Black pawns on row 1, the back
    ranks on rows 7 (White) and 0 (Black) in the order rook, knight, bishop,
    queen, king, bishop, knight, rook, and rows 2 to 5 empty. *)
Theorem Board_init_standard_position :
  fst Board_init = Ret tt /\
  wf_board (snd Board_init) /\
  count_color (snd Board_init) WHITE = 16%nat /\
  count_color (snd Board_init) BLACK = 16%nat /\
  forall c, 0 <= c < 8 ->
    Board_at (snd Board_init) 6 c = Ret (Some (mkPiece Pawn WHITE)) /\
    Board_at (snd Board_init) 1 c = Ret (Some (mkPiece Pawn BLACK)) /\
    (exists k,
       nth_error [Rook; Knight; Bishop; Queen; King; Bishop; Knight; Rook]
         (Z.to_nat c) = Some k /\
       Board_at (snd Board_init) 7 c = Ret (Some (mkPiece k WHITE)) /\
       Board_at (snd Board_init) 0 c = Ret (Some (mkPiece k BLACK))) /\
    (forall r, 2 <= r <= 5 -> Board_at (snd Board_init) r c = Ret None).
Proof.
  change (snd Board_init) with initial_board.
  split; [reflexivity|]. split; [exact initial_board_wf|].
  split; [reflexivity|]. split; [reflexivity|].
  intros c Hc.
  assert (Hcs : c = 0 \/ c = 1 \/ c = 2 \/ c = 3 \/ c = 4 \/ c = 5 \/ c = 6 \/ c = 7)
    by lia.
  repeat split.
  - repeat (destruct Hcs as [->|Hcs]; [reflexivity|]). subst; reflexivity.
  - repeat (destruct Hcs as [->|Hcs]; [reflexivity|]). subst; reflexivity.
  - repeat (destruct Hcs as [->|Hcs];
            [eexists; repeat split; reflexivity|]).
    subst. eexists; repeat split; reflexivity.
  - intros r Hr.
    assert (Hrs : r = 2 \/ r = 3 \/ r = 4 \/ r = 5) by lia.
    destruct Hrs as [-> | [-> | [-> | ->]]];
      repeat (destruct Hcs as [->|Hcs]; [reflexivity|]); subst; reflexivity.
Qed.

Lemma Board_init_standard_position_witness :
  Board_at (snd Board_init) 6 3 = Ret (Some (mkPiece Pawn WHITE)) /\
  Board_at (snd Board_init) 7 3 = Ret (Some (mkPiece Queen WHITE)) /\
  Board_at (snd Board_init) 4 3 = Ret None.
Proof.
  destruct (proj2 (proj2 (proj2 (proj2 Board_init_standard_position))) 3
              ltac:(lia)) as (Hp & _ & (k & Hk & Hw & _) & He).
  split; [exact Hp|]. split.
  - vm_compute in Hk. inversion Hk; subst k. exact Hw.
  - apply He. lia.
Defined.

(** ** The codec *)

Lemma dict_mem_In {V : Type} (d : list (ascii * V)) (k : ascii) :
  dict_mem Ascii.eqb d k = true <-> In k (map fst d).
Proof.
  induction d as [|[k' v] d IH]; simpl.
  - split; [discriminate|intros []].
  - rewrite orb_true_iff, IH, Ascii.eqb_eq. split; intros [H|H]; auto.
Qed.

Lemma str_contains_In (s : string) (ch : ascii) :
  str_contains s ch = true <-> In ch (list_ascii_of_string s).
Proof.
  induction s as [|a s IH]; simpl.
  - split; [discriminate|intros []].
  - rewrite orb_true_iff, IH, Ascii.eqb_eq. split; intros [H|H]; auto.
Qed.

Lemma algebraic_to_rc_valid (s : string) (f d : ascii) :
  normalize s = String f (String d EmptyString) -> In f files -> In d ranks ->
  algebraic_to_rc s
  = Ret (Some (8 - (Z.of_N (N_of_ascii d) - 48), Z.of_N (N_of_ascii f) - 97)) /\
  in_bounds (8 - (Z.of_N (N_of_ascii d) - 48)) (Z.of_N (N_of_ascii f) - 97) = true /\
  rc_to_algebraic (8 - (Z.of_N (N_of_ascii d) - 48)) (Z.of_N (N_of_ascii f) - 97)
  = Ret (normalize s).
Proof.
  intros Hn Hf Hd. unfold algebraic_to_rc. fold (normalize s). rewrite Hn.
  unfold files, ranks in *. simpl in Hf, Hd.
  repeat (destruct Hf as [<-|Hf]);
    try (destruct Hf);
    repeat (destruct Hd as [<-|Hd]);
    try (destruct Hd);
    repeat split; reflexivity.
Qed.

Lemma algebraic_to_rc_invalid (s : string) :
  ~ valid_square_text s -> algebraic_to_rc s = Ret None.
Proof.
  intros Hinv. unfold algebraic_to_rc. fold (normalize s).
  destruct (normalize s) as [|f [|d [|x rest]]] eqn:Hn; try reflexivity.
  cbn [String.length Nat.eqb negb].
  change (str_getitem (String f (String d EmptyString)) 0) with (Ret f).
  change (str_getitem (String f (String d EmptyString)) 1) with (Ret d).
  cbn [bind].
  destruct (dict_mem Ascii.eqb FILE_TO_COL f) eqn:Hf; [|reflexivity].
  cbn [negb].
  destruct (str_contains "12345678" d) eqn:Hd; [|reflexivity].
  exfalso. apply Hinv. exists f, d. split; [assumption|].
  apply dict_mem_In in Hf. apply str_contains_In in Hd. auto.
Qed.

Lemma valid_square_text_dec (s : string) :
  valid_square_text s \/ ~ valid_square_text s.
Proof.
  unfold valid_square_text.
  destruct (normalize s) as [|f [|d [|x rest]]];
    try (right; intros (f' & d' & Hn & _); discriminate).
  destruct (dict_mem Ascii.eqb FILE_TO_COL f) eqn:Hf.
  - destruct (str_contains "12345678" d) eqn:Hd.
    + left. exists f, d. apply dict_mem_In in Hf. apply str_contains_In in Hd. auto.
    + right. intros (f' & d' & Hn & _ & Hd'). inversion Hn; subst.
      apply str_contains_In in Hd'. congruence.
  - right. intros (f' & d' & Hn & Hf' & _). inversion Hn; subst.
    assert (H : dict_mem Ascii.eqb FILE_TO_COL f' = true)
      by (apply dict_mem_In; exact Hf').
    congruence.
Qed.

(** C4: formatting an in-range square and parsing the name gives the square
    back; parsing a valid square name and formatting the square gives the
    name's normal form (trimmed and lowercased). *)
Theorem codec_round_trip :
  (forall r c,
     in_bounds r c = true ->
     exists s, rc_to_algebraic r c = Ret s /\
               algebraic_to_rc s = Ret (Some (r, c))) /\
  (forall s,
     valid_square_text s ->
     exists r c, algebraic_to_rc s = Ret (Some (r, c)) /\
                 rc_to_algebraic r c = Ret (normalize s)).
Proof.
  split.
  - intros r c H. apply in_bounds_iff in H. destruct H as [Hr Hc].
    assert (Hrs : r = 0 \/ r = 1 \/ r = 2 \/ r = 3 \/ r = 4 \/ r = 5 \/ r = 6 \/ r = 7)
      by lia.
    assert (Hcs : c = 0 \/ c = 1 \/ c = 2 \/ c = 3 \/ c = 4 \/ c = 5 \/ c = 6 \/ c = 7)
      by lia.
    clear Hr Hc.
    repeat (destruct Hrs as [Hrs|Hrs]); subst r;
      repeat (destruct Hcs as [Hcs|Hcs]); subst c;
      (eexists; split; reflexivity).
  - intros s (f & d & Hn & Hf & Hd).
    destruct (algebraic_to_rc_valid s f d Hn Hf Hd) as (Hp & _ & Hfmt).
    eauto.
Qed.

Lemma codec_round_trip_witness :
  (exists s, rc_to_algebraic 4 4 = Ret s /\ algebraic_to_rc s = Ret (Some (4, 4))) /\
  (exists r c, algebraic_to_rc "  E4 " = Ret (Some (r, c)) /\
               rc_to_algebraic r c = Ret "e4"%string).
Proof.
  split.
  - apply (proj1 codec_round_trip 4 4). reflexivity.
  - apply (proj2 codec_round_trip "  E4 "%string).
    exists "e"%char, "4"%char. repeat split; vm_compute; auto 10.
Defined.

(** C9: [algebraic_to_rc] returns on every string, never raising; it
    returns [None] exactly when the normalised input is not a file letter
    followed by a rank digit, and otherwise the in-range square
    [(8 - digit, file index)].  Every square a piece's move generator
    yields is in range. *)
Theorem parse_total_and_moves_in_bounds :
  (forall s,
     exists res,
       algebraic_to_rc s = Ret res /\
       (res = None <-> ~ valid_square_text s) /\
       (forall f d,
          normalize s = String f (String d EmptyString) ->
          In f files -> In d ranks ->
          res = Some (8 - (Z.of_N (N_of_ascii d) - 48),
                      Z.of_N (N_of_ascii f) - 97) /\
          in_bounds (8 - (Z.of_N (N_of_ascii d) - 48))
                    (Z.of_N (N_of_ascii f) - 97) = true)) /\
  (forall fuel p b r c,
     wf_board b -> (8 < fuel)%nat ->
     exists ms,
       pseudo_legal_moves fuel p b r c = Ret ms /\
       forall sq, In sq ms -> in_bounds (fst sq) (snd sq) = true).
Proof.
  split.
  - intros s.
    destruct (valid_square_text_dec s) as [Hv|Hinv].
    + destruct Hv as (f & d & Hn & Hf & Hd).
      destruct (algebraic_to_rc_valid s f d Hn Hf Hd) as (Hp & Hb & _).
      eexists. split; [exact Hp|]. split.
      * split; [discriminate|]. intros Hc. exfalso. apply Hc.
        exists f, d. auto.
      * intros f' d' Hn' _ _. rewrite Hn in Hn'. inversion Hn'; subst. auto.
    + exists None. split; [apply algebraic_to_rc_invalid; assumption|]. split.
      * split; auto.
      * intros f d Hn Hf Hd. exfalso. apply Hinv. exists f, d. auto.
  - intros fuel p b r c Hwf Hfuel.
    destruct (pseudo_legal_moves_total fuel p b r c Hwf Hfuel) as (ms & H & Hl).
    exists ms. split; [assumption|]. intros sq Hin. apply (Hl sq Hin).
Qed.

Lemma parse_total_and_moves_in_bounds_witness :
  (exists res, algebraic_to_rc "  E4 " = Ret res /\ res = Some (4, 4)) /\
  (exists ms,
     pseudo_legal_moves 9 (mkPiece Queen WHITE) initial_board 7 3 = Ret ms /\
     forall sq, In sq ms -> in_bounds (fst sq) (snd sq) = true).
Proof.
  split.
  - destruct (proj1 parse_total_and_moves_in_bounds "  E4 "%string)
      as (res & Hres & _ & Hv).
    exists res. split; [exact Hres|].
    apply (Hv "e"%char "4"%char); [reflexivity| |]; vm_compute; auto 10.
  - apply (proj2 parse_total_and_moves_in_bounds 9%nat (mkPiece Queen WHITE)
             initial_board 7 3).
    + exact initial_board_wf.
    + lia.
Defined.

(** ** Squares as the specification speaks of them *)

Lemma is_opponent_true (p : Piece) (t : option Piece) :
  is_opponent p t = true <-> exists t', t = Some t' /\ color t' <> color p.
Proof.
  unfold is_opponent. destruct t as [t'|].
  - rewrite negb_true_iff. split.
    + intros H. exists t'. split; [reflexivity|].
      intros Hc. apply Color_eqb_eq in Hc. congruence.
    + intros (t'' & Ht & Hc). inversion Ht; subst t''.
      destruct (Color_eqb (color t') (color p)) eqn:He; [|reflexivity].
      apply Color_eqb_eq in He. contradiction.
  - split; [discriminate|]. intros (t' & Ht & _). discriminate.
Qed.

Lemma vacant_iff (b : Board) (r c : Z) :
  wf_board b -> (vacant b r c <-> empty_square b r c).
Proof.
  intros Hwf. unfold vacant, empty_square. split; intros [Hb H]; split; auto.
  - apply Board_at_Ret_iff; assumption.
  - apply Board_at_Ret_iff in H; assumption.
Qed.

Lemma opponent_iff (p : Piece) (b : Board) (r c : Z) :
  wf_board b ->
  (in_bounds r c = true /\ is_opponent p (cell b r c) = true
   <-> opponent_square p b r c).
Proof.
  intros Hwf. unfold opponent_square. rewrite is_opponent_true.
  split; intros (Hb & t & Ht & Hc); (split; [assumption|]); exists t; split; auto.
  - apply Board_at_Ret_iff; assumption.
  - apply Board_at_Ret_iff in Ht; assumption.
Qed.

Lemma landable_iff (p : Piece) (b : Board) (r c : Z) :
  wf_board b ->
  (landable p b (r, c) <-> empty_square b r c \/ opponent_square p b r c).
Proof.
  intros Hwf. rewrite <- vacant_iff, <- opponent_iff by assumption.
  unfold landable, vacant. cbn [fst snd]. tauto.
Qed.

(** C6: a pawn, wherever it stands, moves toward row 0 if White and toward
    row 7 if Black.  Its one-step square is among its pseudo-legal moves
    exactly when that square is on the board and empty; its two-step square
    exactly when the pawn stands on its starting row (6 for White, 1 for
    Black) and both squares are empty; a forward-diagonal square exactly
    when it is on the board and holds a piece of the other colour, never
    when it is empty. *)
Theorem Pawn_moves_rule (fuel : nat) (p : Piece) (b : Board) (r c d start : Z) :
  wf_board b -> kind p = Pawn ->
  (color p = WHITE /\ d = -1 /\ start = 6 \/
   color p = BLACK /\ d = 1 /\ start = 1) ->
  exists ms,
    pseudo_legal_moves fuel p b r c = Ret ms /\
    (In (r + d, c) ms <-> empty_square b (r + d) c) /\
    (In (r + 2 * d, c) ms <->
       r = start /\ empty_square b (r + d) c /\ empty_square b (r + 2 * d) c) /\
    (forall dc, dc = -1 \/ dc = 1 ->
       (In (r + d, c + dc) ms <-> opponent_square p b (r + d) (c + dc)) /\
       (Board_at b (r + d) (c + dc) = Ret None -> ~ In (r + d, c + dc) ms)).
Proof.
  intros Hwf Hk Hcol.
  destruct (Pawn_moves_spec p b r c Hwf) as (ms & Hms & Hspec).
  assert (Hd : pawn_dir (color p) = d /\ pawn_start (color p) = start).
  { unfold pawn_dir, pawn_start.
    destruct Hcol as [(-> & -> & ->)|(-> & -> & ->)]; auto. }
  destruct Hd as [Hd Hs]. cbv zeta in Hspec. rewrite Hd, Hs in Hspec.
  assert (Hd0 : d = -1 \/ d = 1) by (destruct Hcol as [H|H]; lia).
  exists ms. split; [unfold pseudo_legal_moves; rewrite Hk; exact Hms|].
  assert (Hdiag : forall dc, dc = -1 \/ dc = 1 ->
            (In (r + d, c + dc) ms <-> opponent_square p b (r + d) (c + dc))).
  { intros dc Hdc. rewrite Hspec, <- opponent_iff by assumption. split.
    - intros [(Heq & _)|[(Heq & _)|(dc' & _ & Heq & H)]].
      + apply pair_equal_spec in Heq. lia.
      + apply pair_equal_spec in Heq. lia.
      + apply pair_equal_spec in Heq. replace dc with dc' by lia. exact H.
    - intros H. right. right. exists dc. tauto. }
  split; [|split].
  - rewrite Hspec, <- vacant_iff by assumption. split.
    + intros [(_ & H)|[(Heq & _)|(dc & Hdc & Heq & _)]].
      * exact H.
      * apply pair_equal_spec in Heq. lia.
      * apply pair_equal_spec in Heq. lia.
    + intros H. left. auto.
  - rewrite Hspec, <- !vacant_iff by assumption. split.
    + intros [(Heq & _)|[(_ & H)|(dc & Hdc & Heq & _)]].
      * apply pair_equal_spec in Heq. lia.
      * exact H.
      * apply pair_equal_spec in Heq. lia.
    + intros H. right. left. auto.
  - intros dc Hdc. split; [apply Hdiag; assumption|].
    intros Hnone Hin. apply Hdiag in Hin; [|assumption].
    destruct Hin as (_ & t & Ht & _). congruence.
Qed.

Lemma Pawn_moves_rule_witness :
  exists ms,
    pseudo_legal_moves 0 (mkPiece Pawn WHITE) initial_board 6 4 = Ret ms /\
    (In (6 + -1, 4) ms <-> empty_square initial_board (6 + -1) 4) /\
    (In (6 + 2 * -1, 4) ms <->
       6 = 6 /\ empty_square initial_board (6 + -1) 4 /\
       empty_square initial_board (6 + 2 * -1) 4) /\
    (forall dc, dc = -1 \/ dc = 1 ->
       (In (6 + -1, 4 + dc) ms <->
          opponent_square (mkPiece Pawn WHITE) initial_board (6 + -1) (4 + dc)) /\
       (Board_at initial_board (6 + -1) (4 + dc) = Ret None ->
        ~ In (6 + -1, 4 + dc) ms)).
Proof.
  apply (Pawn_moves_rule 0 (mkPiece Pawn WHITE) initial_board 6 4 (-1) 6).
  - exact initial_board_wf.
  - reflexivity.
  - left. repeat split; reflexivity.
Defined.

Lemma slide_dir_In (k : Kind) (dr dc : Z) :
  slide_dir k dr dc <-> In (dr, dc) (slide_deltas k).
Proof.
  split.
  - intros H.
    assert (Hr : dr = -1 \/ dr = 0 \/ dr = 1) by (destruct k; simpl in H; lia).
    assert (Hc : dc = -1 \/ dc = 0 \/ dc = 1) by (destruct k; simpl in H; lia).
    destruct k; simpl in H; try contradiction;
      destruct Hr as [-> | [-> | ->]], Hc as [-> | [-> | ->]];
      simpl; try lia; auto 10.
  - destruct k; simpl; intros H;
      repeat (destruct H as [H|H]; [inversion H; subst; lia|]); destruct H.
Qed.

Lemma walk_reach_ray (p : Piece) (b : Board) (r c dr dc : Z) (sq : Z * Z) :
  wf_board b ->
  (walk_reach p b (r + dr) (c + dc) dr dc sq <-> ray_reaches p b r c dr dc sq).
Proof.
  intros Hwf. unfold walk_reach, ray_reaches. split.
  - intros (k & Hsq & Hpath & Hland). exists (S k).
    split; [lia|]. split; [subst sq; f_equal; lia|]. split.
    + intros j Hj. apply vacant_iff; [assumption|].
      destruct j as [|j]; [lia|].
      destruct (Hpath j ltac:(lia)) as [H1 H2].
      replace (r + Z.of_nat (S j) * dr) with (r + dr + Z.of_nat j * dr) by lia.
      replace (c + Z.of_nat (S j) * dc) with (c + dc + Z.of_nat j * dc) by lia.
      split; assumption.
    + destruct sq as [sr sc]. apply landable_iff; assumption.
  - intros (n & Hn & Hsq & Hpath & Hland). destruct n as [|k]; [lia|].
    exists k. split; [subst sq; f_equal; lia|]. split.
    + intros j Hj.
      pose proof (Hpath (S j) ltac:(lia)) as H.
      apply vacant_iff in H; [|assumption].
      replace (r + Z.of_nat (S j) * dr) with (r + dr + Z.of_nat j * dr) in H by lia.
      replace (c + Z.of_nat (S j) * dc) with (c + dc + Z.of_nat j * dc) in H by lia.
      exact H.
    + destruct sq as [sr sc]. apply landable_iff; assumption.
Qed.

Lemma sliding_moves_spec (fuel : nat) (p : Piece) (b : Board) (r c : Z) :
  wf_board b -> (8 < fuel)%nat ->
  kind p = Queen \/ kind p = Rook \/ kind p = Bishop ->
  exists ms,
    pseudo_legal_moves fuel p b r c = Ret ms /\
    forall sq, In sq ms <->
      exists dr dc, slide_dir (kind p) dr dc /\ ray_reaches p b r c dr dc sq.
Proof.
  intros Hwf Hfuel Hk.
  destruct (line_moves_spec fuel p b r c (slide_deltas (kind p)) Hwf Hfuel)
    as (ms & Hms & Hspec).
  { intros dr dc. unfold slide_deltas. apply slide_deltas_unit. }
  exists ms. split.
  - unfold pseudo_legal_moves.
    destruct Hk as [Hk|[Hk|Hk]]; rewrite Hk in *; exact Hms.
  - intros sq. rewrite Hspec. split.
    + intros (dr & dc & Hin & Hr). exists dr, dc.
      split; [apply slide_dir_In; assumption|].
      apply walk_reach_ray; assumption.
    + intros (dr & dc & Hd & Hr). exists dr, dc.
      split; [apply slide_dir_In; assumption|].
      apply walk_reach_ray; assumption.
Qed.

(** On the d-file above a rook on d4: row [4 - n] for the [n]-th square. *)
Lemma rook_d_file (p : Piece) (b : Board) (dr dc : Z) (row : Z) :
  slide_dir Rook dr dc ->
  ray_reaches p b 4 3 dr dc (row, 3) ->
  0 <= row < 4 ->
  dr = -1 /\ dc = 0 /\
  (forall j, row < j < 4 -> empty_square b j 3) /\
  (empty_square b row 3 \/ opponent_square p b row 3).
Proof.
  intros Hd (n & Hn & Hsq & Hpath & Hland) Hrow. cbn [fst snd] in Hland.
  apply pair_equal_spec in Hsq. simpl in Hd.
  assert (Hdir : dr = -1 /\ dc = 0) by nia.
  destruct Hdir as [-> ->].
  split; [reflexivity|]. split; [reflexivity|]. split; [|assumption].
  intros j Hj.
  pose proof (Hpath (Z.to_nat (4 - j)) ltac:(lia)) as H.
  replace (4 + Z.of_nat (Z.to_nat (4 - j)) * -1) with j in H by lia.
  replace (3 + Z.of_nat (Z.to_nat (4 - j)) * 0) with 3 in H by lia.
  exact H.
Qed.

(** C5: a queen, rook or bishop walks outward from its square along each
    of its directions (eight, four orthogonal, four diagonal): a square is
    among its pseudo-legal moves exactly when it lies on such a ray, every
    square before it on the ray is empty, and it is itself empty or holds a
    piece of the other colour.  So the walk passes empty squares, stops
    short of a piece of its own colour, and stops on a piece of the other
    colour.  A rook on d4 with d5 empty and a pawn on d6 has d5 but none of
    d6, d7, d8 when the pawn is its own colour, and d5 and d6 but neither
    d7 nor d8 when the pawn is the other colour. *)
Theorem sliding_moves_rule (fuel : nat) (p : Piece) (b : Board) :
  wf_board b -> (8 < fuel)%nat ->
  (forall r c,
     kind p = Queen \/ kind p = Rook \/ kind p = Bishop ->
     exists ms,
       pseudo_legal_moves fuel p b r c = Ret ms /\
       forall sq, In sq ms <->
         exists dr dc, slide_dir (kind p) dr dc /\ ray_reaches p b r c dr dc sq) /\
  (forall d4 d5 d6 d7 d8 q,
     algebraic_to_rc "d4" = Ret (Some d4) ->
     algebraic_to_rc "d5" = Ret (Some d5) ->
     algebraic_to_rc "d6" = Ret (Some d6) ->
     algebraic_to_rc "d7" = Ret (Some d7) ->
     algebraic_to_rc "d8" = Ret (Some d8) ->
     kind p = Rook ->
     Board_at b (fst d4) (snd d4) = Ret (Some p) ->
     Board_at b (fst d5) (snd d5) = Ret None ->
     Board_at b (fst d6) (snd d6) = Ret (Some q) ->
     kind q = Pawn ->
     exists ms,
       pseudo_legal_moves fuel p b (fst d4) (snd d4) = Ret ms /\
       (color q = color p ->
        In d5 ms /\ ~ In d6 ms /\ ~ In d7 ms /\ ~ In d8 ms) /\
       (color q <> color p ->
        In d5 ms /\ In d6 ms /\ ~ In d7 ms /\ ~ In d8 ms)).
Proof.
  intros Hwf Hfuel. split.
  - intros r c Hk. apply sliding_moves_spec; assumption.
  - intros d4 d5 d6 d7 d8 q H4 H5 H6 H7 H8 Hk Hrook Hd5 Hd6 _.
    vm_compute in H4, H5, H6, H7, H8.
    inversion H4; subst d4. inversion H5; subst d5. inversion H6; subst d6.
    inversion H7; subst d7. inversion H8; subst d8. cbn [fst snd] in *.
    destruct (sliding_moves_spec fuel p b 4 3 Hwf Hfuel (or_intror (or_introl Hk)))
      as (ms & Hms & Hspec).
    rewrite Hk in Hspec.
    assert (E5 : empty_square b 3 3) by (split; [reflexivity|assumption]).
    assert (N6 : ~ empty_square b 2 3) by (intros [_ H]; congruence).
    assert (In5 : In (3, 3) ms).
    { apply Hspec. exists (-1), 0. split; [simpl; lia|].
      exists 1%nat. split; [lia|]. split; [reflexivity|]. split; [lia|].
      left. exact E5. }
    assert (Out7 : ~ In (1, 3) ms).
    { intros Hin. apply Hspec in Hin. destruct Hin as (dr & dc & Hd & Hr).
      destruct (rook_d_file p b dr dc 1 Hd Hr ltac:(lia)) as (_ & _ & Hp & _).
      apply N6. apply Hp. lia. }
    assert (Out8 : ~ In (0, 3) ms).
    { intros Hin. apply Hspec in Hin. destruct Hin as (dr & dc & Hd & Hr).
      destruct (rook_d_file p b dr dc 0 Hd Hr ltac:(lia)) as (_ & _ & Hp & _).
      apply N6. apply Hp. lia. }
    exists ms. split; [assumption|]. split.
    + intros Hsame. repeat split; try assumption.
      intros Hin. apply Hspec in Hin. destruct Hin as (dr & dc & Hd & Hr).
      destruct (rook_d_file p b dr dc 2 Hd Hr ltac:(lia)) as (_ & _ & _ & Hl).
      destruct Hl as [He|(_ & t & Ht & Hc)]; [contradiction|].
      rewrite Hd6 in Ht. inversion Ht; subst t. contradiction.
    + intros Hopp. repeat split; try assumption.
      apply Hspec. exists (-1), 0. split; [simpl; lia|].
      exists 2%nat. split; [lia|]. split; [reflexivity|]. split.
      * intros j Hj. assert (j = 1%nat) as -> by lia. exact E5.
      * right. split; [reflexivity|]. exists q. auto.
Qed.

Lemma rook_d4_board_wf (col : Color) : wf_board (rook_d4_board col).
Proof.
  unfold rook_d4_board.
  apply set_cell_wf; [apply set_cell_wf|]; auto using empty_board_wf.
Qed.

Lemma sliding_moves_rule_witness :
  exists ms,
    pseudo_legal_moves 9 (mkPiece Rook WHITE) (rook_d4_board BLACK) 4 3 = Ret ms /\
    (BLACK = WHITE ->
     In (3, 3) ms /\ ~ In (2, 3) ms /\ ~ In (1, 3) ms /\ ~ In (0, 3) ms) /\
    (BLACK <> WHITE ->
     In (3, 3) ms /\ In (2, 3) ms /\ ~ In (1, 3) ms /\ ~ In (0, 3) ms).
Proof.
  apply (proj2 (sliding_moves_rule 9 (mkPiece Rook WHITE) (rook_d4_board BLACK)
                  (rook_d4_board_wf BLACK) ltac:(lia))
           (4, 3) (3, 3) (2, 3) (1, 3) (0, 3) (mkPiece Pawn BLACK));
    reflexivity.
Defined.

(** ** The command loop *)

Lemma algebraic_to_rc_cases (s : string) :
  (exists f d,
     normalize s = String f (String d EmptyString) /\ In f files /\ In d ranks /\
     algebraic_to_rc s
     = Ret (Some (8 - (Z.of_N (N_of_ascii d) - 48), Z.of_N (N_of_ascii f) - 97)))
  \/ (~ valid_square_text s /\ algebraic_to_rc s = Ret None).
Proof.
  destruct (valid_square_text_dec s) as [(f & d & Hn & Hf & Hd)|Hinv].
  - left. exists f, d.
    destruct (algebraic_to_rc_valid s f d Hn Hf Hd) as (Hp & _). auto.
  - right. split; [assumption|]. apply algebraic_to_rc_invalid. assumption.
Qed.

Lemma algebraic_to_rc_total (s : string) :
  exists res, algebraic_to_rc s = Ret res.
Proof.
  destruct (algebraic_to_rc_cases s) as [(f & d & _ & _ & _ & H)|(_ & H)]; eauto.
Qed.

Lemma algebraic_to_rc_in_bounds (s : string) (r c : Z) :
  algebraic_to_rc s = Ret (Some (r, c)) -> in_bounds r c = true.
Proof.
  intros H.
  destruct (algebraic_to_rc_cases s) as [(f & d & Hn & Hf & Hd & H')|(_ & H')].
  - destruct (algebraic_to_rc_valid s f d Hn Hf Hd) as (_ & Hb & _).
    rewrite H' in H. inversion H; subst. exact Hb.
  - rewrite H' in H. discriminate.
Qed.

Lemma input_loop_move_unfold (fuel : nat) (p0 p1 : string) (w : World)
  (r1 c1 r2 c2 : Z) :
  algebraic_to_rc p0 = Ret (Some (r1, c1)) ->
  algebraic_to_rc p1 = Ret (Some (r2, c2)) ->
  wf_board (board (self w)) -> (8 < fuel)%nat ->
  input_loop_move fuel [p0; p1] w =
  match cell (board (self w)) r1 c1 with
  | None => (Ret Continue, w)
  | Some p =>
      if negb (Color_eqb (color p) (turn (self w))) then (Ret Continue, w)
      else
        match Board_move fuel (r1, c1) (r2, c2) (board (self w)) with
        | (Ret (true, _), b') =>
            (Ret Continue,
             mkWorld (applied (self w) b' p0 p1) (stdout w ++ [PrintBoard b']))
        | (_, _) => (Ret Continue, w)
        end
  end.
Proof.
  intros Hp0 Hp1 Hwf Hfuel.
  pose proof (algebraic_to_rc_in_bounds p0 r1 c1 Hp0) as H1.
  pose proof (algebraic_to_rc_in_bounds p1 r2 c2 Hp1) as H2.
  unfold input_loop_move. cbn [List.length Nat.eqb negb].
  unfold sbind, reading, sret, on_board, on_self, print.
  change (list_getitem [p0; p1] 0) with (Ret p0).
  change (list_getitem [p0; p1] 1) with (Ret p1).
  cbv beta iota. rewrite Hp0. cbv beta iota. rewrite Hp1. cbv beta iota.
  cbn [fst snd].
  rewrite (Board_at_cell _ r1 c1 Hwf H1). cbv beta iota.
  destruct (cell (board (self w)) r1 c1) as [p|] eqn:Hp; [|reflexivity].
  destruct (negb (Color_eqb (color p) (turn (self w)))); [reflexivity|].
  rewrite (Board_move_unfold fuel _ r1 c1 r2 c2 Hwf H1 H2). rewrite Hp.
  destruct w as [[bd tn hs rn] out]. cbn [self board turn history running stdout].
  destruct (same_color_at p (cell bd r2 c2)); [reflexivity|].
  destruct (pseudo_legal_moves_total fuel p bd r1 c1 Hwf Hfuel) as (ms & Hms & _).
  rewrite Hms. destruct (mem_sq (r2, c2) ms); reflexivity.
Qed.

Lemma Game_other_flips (t : Color) : Game_other t <> t.
Proof. destruct t; discriminate. Qed.

Lemma input_loop_move_ignored (fuel : nat) (parts : list string) (w : World) :
  (forall p0 p1 src dst,
     ~ (parts = [p0; p1] /\ algebraic_to_rc p0 = Ret (Some src) /\
        algebraic_to_rc p1 = Ret (Some dst))) ->
  input_loop_move fuel parts w = (Ret Continue, w).
Proof.
  intros Hnot. destruct parts as [|p0 [|p1 [|x rest]]]; try reflexivity.
  unfold input_loop_move. cbn [List.length Nat.eqb negb].
  unfold sbind, reading, sret.
  change (list_getitem [p0; p1] 0) with (Ret p0).
  change (list_getitem [p0; p1] 1) with (Ret p1).
  cbv beta iota.
  destruct (algebraic_to_rc_total p0) as [res0 Hp0].
  destruct (algebraic_to_rc_total p1) as [res1 Hp1].
  rewrite Hp0. cbv beta iota. rewrite Hp1. cbv beta iota.
  destruct res0 as [src|]; [|reflexivity].
  destruct res1 as [dst|]; [|reflexivity].
  exfalso. apply (Hnot p0 p1 src dst). auto.
Qed.

(** C8: one pass of the move-command handling returns to the loop, and
    - when the source square is vacant, or its piece is not of the side to
      move, or [Board.move] returns failure, the game (so its turn and its
      history) is unchanged;
    - when [Board.move] returns success for a piece of the side to move, the
      game is the old one with the board moved, the entry
      [parts[0] -> parts[1]] appended to the history, and [switch_turn]
      applied once: the turn is the other colour;
    - a command that is not two square names changes nothing. *)
Theorem input_loop_move_turn_history (fuel : nat) (parts : list string) (w : World) :
  wf_board (board (self w)) -> (8 < fuel)%nat ->
  exists w',
    input_loop_move fuel parts w = (Ret Continue, w') /\
    (forall p0 p1 src dst,
       parts = [p0; p1] ->
       algebraic_to_rc p0 = Ret (Some src) ->
       algebraic_to_rc p1 = Ret (Some dst) ->
       (Board_at (board (self w)) (fst src) (snd src) = Ret None \/
        (exists p, Board_at (board (self w)) (fst src) (snd src) = Ret (Some p) /\
                   color p <> turn (self w)) \/
        (exists msg b',
           Board_move fuel src dst (board (self w)) = (Ret (false, msg), b'))) ->
       w' = w) /\
    (forall p0 p1 src dst p msg b',
       parts = [p0; p1] ->
       algebraic_to_rc p0 = Ret (Some src) ->
       algebraic_to_rc p1 = Ret (Some dst) ->
       Board_at (board (self w)) (fst src) (snd src) = Ret (Some p) ->
       color p = turn (self w) ->
       Board_move fuel src dst (board (self w)) = (Ret (true, msg), b') ->
       self w' = Game_switch_turn
                   (mkGame b' (turn (self w))
                      (history (self w) ++ [(p0 ++ " -> " ++ p1)%string])
                      (running (self w))) /\
       turn (self w') = Game_other (turn (self w)) /\
       turn (self w') <> turn (self w) /\
       history (self w') = history (self w) ++ [(p0 ++ " -> " ++ p1)%string]) /\
    ((forall p0 p1 src dst,
        ~ (parts = [p0; p1] /\ algebraic_to_rc p0 = Ret (Some src) /\
           algebraic_to_rc p1 = Ret (Some dst))) ->
     w' = w).
Proof.
  intros Hwf Hfuel.
  assert (Hcase :
    (exists p0 p1 r1 c1 r2 c2,
       parts = [p0; p1] /\ algebraic_to_rc p0 = Ret (Some (r1, c1)) /\
       algebraic_to_rc p1 = Ret (Some (r2, c2))) \/
    (forall p0 p1 src dst,
       ~ (parts = [p0; p1] /\ algebraic_to_rc p0 = Ret (Some src) /\
          algebraic_to_rc p1 = Ret (Some dst)))).
  { destruct parts as [|p0 [|p1 [|x rest]]];
      try (right; intros ? ? ? ? (H & _); discriminate).
    destruct (algebraic_to_rc_total p0) as [[[r1 c1]|] Hp0];
      destruct (algebraic_to_rc_total p1) as [[[r2 c2]|] Hp1].
    - left. exists p0, p1, r1, c1, r2, c2. auto.
    - right. intros ? ? ? ? (H & _ & H1). inversion H; subst. congruence.
    - right. intros ? ? ? ? (H & H0 & _). inversion H; subst. congruence.
    - right. intros ? ? ? ? (H & H0 & _). inversion H; subst. congruence. }
  destruct Hcase as [(p0 & p1 & r1 & c1 & r2 & c2 & -> & Hp0 & Hp1)|Hnot].
  2:{ exists w. split; [apply input_loop_move_ignored; assumption|].
      split; [auto|]. split; [|auto].
      intros p0 p1 src dst p msg b' -> H0 H1. exfalso.
      apply (Hnot p0 p1 src dst). auto. }
  pose proof (algebraic_to_rc_in_bounds p0 r1 c1 Hp0) as H1.
  rewrite (input_loop_move_unfold fuel p0 p1 w r1 c1 r2 c2 Hp0 Hp1 Hwf Hfuel).
  assert (Hsame : forall q0 q1 src dst,
            [p0; p1] = [q0; q1] ->
            algebraic_to_rc q0 = Ret (Some src) ->
            algebraic_to_rc q1 = Ret (Some dst) ->
            q0 = p0 /\ q1 = p1 /\ src = (r1, c1) /\ dst = (r2, c2)).
  { intros q0 q1 src dst Heq Hq0 Hq1. inversion Heq; subst q0 q1.
    rewrite Hp0 in Hq0. rewrite Hp1 in Hq1.
    inversion Hq0. inversion Hq1. auto. }
  destruct (cell (board (self w)) r1 c1) as [p|] eqn:Hp.
  2:{ exists w. split; [reflexivity|]. split; [auto|]. split; [|auto].
      intros q0 q1 src dst p' msg b' Heq Hq0 Hq1 Hat.
      destruct (Hsame q0 q1 src dst Heq Hq0 Hq1) as (_ & _ & -> & _).
      cbn [fst snd] in Hat. rewrite (Board_at_cell _ _ _ Hwf H1), Hp in Hat.
      discriminate. }
  destruct (Color_eqb (color p) (turn (self w))) eqn:Hturn; cbn [negb].
  2:{ exists w. split; [reflexivity|]. split; [auto|]. split; [|auto].
      intros q0 q1 src dst p' msg b' Heq Hq0 Hq1 Hat Hcol.
      destruct (Hsame q0 q1 src dst Heq Hq0 Hq1) as (_ & _ & -> & _).
      cbn [fst snd] in Hat. rewrite (Board_at_cell _ _ _ Hwf H1), Hp in Hat.
      inversion Hat; subst p'. apply Color_eqb_eq in Hcol. congruence. }
  apply Color_eqb_eq in Hturn.
  destruct (Board_move fuel (r1, c1) (r2, c2) (board (self w)))
    as [[[[|] m]| |] bd'] eqn:Hmove.
  - eexists. split; [reflexivity|]. split; [|split].
    + intros q0 q1 src dst Heq Hq0 Hq1 Hwhy.
      destruct (Hsame q0 q1 src dst Heq Hq0 Hq1) as (_ & _ & -> & ->).
      cbn [fst snd] in Hwhy. rewrite (Board_at_cell _ _ _ Hwf H1), Hp in Hwhy.
      destruct Hwhy as [H|[(p' & H & Hc)|(msg & b' & H)]].
      * discriminate.
      * inversion H; subst p'. contradiction.
      * rewrite Hmove in H. discriminate.
    + intros q0 q1 src dst p' msg b' Heq Hq0 Hq1 Hat Hcol Hmv.
      destruct (Hsame q0 q1 src dst Heq Hq0 Hq1) as (-> & -> & -> & ->).
      rewrite Hmove in Hmv. inversion Hmv; subst. cbn [self].
      unfold applied, history_entry, Game_switch_turn.
      cbn [board turn history running]. repeat split.
      apply Game_other_flips.
    + intros Hnot. exfalso. apply (Hnot p0 p1 (r1, c1) (r2, c2)). auto.
  - exists w. split; [reflexivity|]. split; [auto|]. split; [|auto].
    intros q0 q1 src dst p' msg b' Heq Hq0 Hq1 Hat Hcol Hmv.
    destruct (Hsame q0 q1 src dst Heq Hq0 Hq1) as (_ & _ & -> & ->).
    rewrite Hmove in Hmv. discriminate.
  - exists w. split; [reflexivity|]. split; [auto|]. split; [|auto].
    intros q0 q1 src dst p' msg b' Heq Hq0 Hq1 Hat Hcol Hmv.
    destruct (Hsame q0 q1 src dst Heq Hq0 Hq1) as (_ & _ & -> & ->).
    rewrite Hmove in Hmv. discriminate.
  - exists w. split; [reflexivity|]. split; [auto|]. split; [|auto].
    intros q0 q1 src dst p' msg b' Heq Hq0 Hq1 Hat Hcol Hmv.
    destruct (Hsame q0 q1 src dst Heq Hq0 Hq1) as (_ & _ & -> & ->).
    rewrite Hmove in Hmv. discriminate.
Qed.

Lemma input_loop_move_turn_history_witness :
  exists w',
    input_loop_move 9 ["e2"; "e4"]%string opening_world = (Ret Continue, w') /\
    turn (self w') = BLACK /\
    history (self w') = ["e2 -> e4"%string].
Proof.
  destruct (input_loop_move_turn_history 9 ["e2"; "e4"]%string opening_world
              initial_board_wf ltac:(lia)) as (w' & Hrun & _ & Hok & _).
  exists w'. split; [exact Hrun|].
  destruct (Hok "e2"%string "e4"%string (6, 4) (4, 4) (mkPiece Pawn WHITE)
              EmptyString (snd (Board_move 9 (6, 4) (4, 4) initial_board))
              eq_refl eq_refl eq_refl eq_refl eq_refl
              ltac:(vm_compute; reflexivity))
    as (_ & Ht & _ & Hh).
  split; [exact Ht|exact Hh].
Defined.

(** ** The whole loop on a short session *)

(** A new game, then: e2-e4 is applied and Black is to move; e2-e4 again is
    refused, e2 being vacant, and Black is still to move; e7-e5 is applied;
    [quit] ends the loop. *)
Example turn_enforcement_session :
  exists g,
    Game_init = Ret g /\
    forall fuel, (8 < fuel)%nat ->
      let after (inputs : list string) :=
        let '(r, w) := input_loop fuel inputs (mkWorld g []) in
        (r, turn (self w), history (self w)) in
      after ["e2 e4"; "quit"]%string = (Ret tt, BLACK, ["e2 -> e4"%string]) /\
      after ["e2 e4"; "e2 e4"; "quit"]%string
      = (Ret tt, BLACK, ["e2 -> e4"%string]) /\
      after ["e2 e4"; "e2 e4"; "e7 e5"; "quit"]%string
      = (Ret tt, WHITE, ["e2 -> e4"; "e7 -> e5"]%string) /\
      after ["e2 e4"]%string = (Raise EOFError, BLACK, ["e2 -> e4"%string]).
Proof.
  exists (mkGame initial_board WHITE [] true). split; [reflexivity|].
  intros fuel Hfuel.
  do 9 (destruct fuel as [|fuel]; [lia|]).
  repeat split; vm_compute; reflexivity.
Qed.

(** * Further properties of the code *)

(** ** What the generators yield *)

Lemma line_moves_In (fuel : nat) (self : Piece) (b : Board) (r c : Z)
  (deltas : list (Z * Z)) (ms : list (Z * Z)) :
  wf_board b ->
  line_moves fuel self b r c deltas = Ret ms ->
  forall sq, In sq ms ->
    exists dr dc, In (dr, dc) deltas /\
                  walk_reach self b (r + dr) (c + dc) dr dc sq.
Proof.
  intros Hwf H sq Hin. unfold line_moves in H.
  apply (for_each_In _ _ _ H sq) in Hin.
  destruct Hin as ([dr dc] & ms' & Hd & Hw & Hsq).
  exists dr, dc. split; [assumption|].
  apply (line_walk_In fuel self b dr dc Hwf _ _ _ Hw). assumption.
Qed.

Lemma walk_reach_off_origin (self : Piece) (b : Board) (r c dr dc : Z)
  (sq : Z * Z) :
  unit_step dr dc ->
  walk_reach self b (r + dr) (c + dc) dr dc sq -> sq <> (r, c).
Proof.
  intros (Hr & Hc & Hnz) (k & -> & _ & _) Heq.
  apply pair_equal_spec in Heq. destruct Heq as [H1 H2].
  assert (Hdr : dr = -1 \/ dr = 0 \/ dr = 1) by lia.
  assert (Hdc : dc = -1 \/ dc = 0 \/ dc = 1) by lia.
  destruct Hdr as [-> | [-> | ->]], Hdc as [-> | [-> | ->]]; lia.
Qed.

(** Whatever a generator returns is a square to land on, not the origin. *)
Lemma pseudo_legal_moves_sound (fuel : nat) (p : Piece) (b : Board) (r c : Z)
  (ms : list (Z * Z)) :
  wf_board b ->
  pseudo_legal_moves fuel p b r c = Ret ms ->
  forall sq, In sq ms -> landable p b sq /\ sq <> (r, c).
Proof.
  intros Hwf H sq Hin. unfold pseudo_legal_moves in H.
  pose proof (slide_deltas_unit (kind p)) as Hunit.
  destruct (kind p).
  - destruct (King_moves_spec p b r c Hwf) as (ms' & H' & Hs).
    rewrite H' in H. inversion H; subst ms'. apply Hs in Hin.
    destruct Hin as (dr & dc & (Hr & Hc & Hnz) & -> & Hl). split; [exact Hl|].
    intros Heq. apply pair_equal_spec in Heq. lia.
  - destruct (line_moves_In fuel p b r c _ ms Hwf H sq Hin) as (dr & dc & Hd & Hw).
    split; [eapply walk_reach_landable; eassumption|].
    eapply walk_reach_off_origin; [apply (Hunit dr dc Hd)|eassumption].
  - destruct (line_moves_In fuel p b r c _ ms Hwf H sq Hin) as (dr & dc & Hd & Hw).
    split; [eapply walk_reach_landable; eassumption|].
    eapply walk_reach_off_origin; [apply (Hunit dr dc Hd)|eassumption].
  - destruct (line_moves_In fuel p b r c _ ms Hwf H sq Hin) as (dr & dc & Hd & Hw).
    split; [eapply walk_reach_landable; eassumption|].
    eapply walk_reach_off_origin; [apply (Hunit dr dc Hd)|eassumption].
  - destruct (Knight_moves_spec p b r c Hwf) as (ms' & H' & Hs).
    rewrite H' in H. inversion H; subst ms'. apply Hs in Hin.
    destruct Hin as (dr & dc & Hd & -> & Hl). split; [exact Hl|].
    intros Heq. apply pair_equal_spec in Heq. simpl in Hd.
    repeat (destruct Hd as [Hd|Hd]; [inversion Hd; subst; lia|]). destruct Hd.
  - destruct (Pawn_moves_spec p b r c Hwf) as (ms' & H' & Hs).
    rewrite H' in H. inversion H; subst ms'. apply Hs in Hin.
    assert (Hd : pawn_dir (color p) = -1 \/ pawn_dir (color p) = 1)
      by (unfold pawn_dir; destruct (Color_eqb (color p) WHITE); auto).
    unfold landable, vacant in *.
    destruct Hin as [(-> & Hb & Hc)|[(-> & _ & _ & Hb & Hc)|(dc & _ & -> & Hb & Ho)]];
      cbn [fst snd]; (split; [auto|]);
      intros Heq; apply pair_equal_spec in Heq; lia.
Qed.

(** X1: a king's pseudo-legal moves are exactly the squares one step away
    in any of the eight directions that are on the board and empty or held
    by the other colour. *)
Theorem King_moves_rule (fuel : nat) (p : Piece) (b : Board) (r c : Z) :
  wf_board b -> kind p = King ->
  exists ms,
    pseudo_legal_moves fuel p b r c = Ret ms /\
    forall sr sc, In (sr, sc) ms <->
      Z.max (Z.abs (sr - r)) (Z.abs (sc - c)) = 1 /\
      (empty_square b sr sc \/ opponent_square p b sr sc).
Proof.
  intros Hwf Hk.
  destruct (King_moves_spec p b r c Hwf) as (ms & Hms & Hs).
  exists ms. split; [unfold pseudo_legal_moves; rewrite Hk; exact Hms|].
  intros sr sc. rewrite Hs, <- landable_iff by assumption. split.
  - intros (dr & dc & (Hr & Hc & Hnz) & Heq & Hl).
    apply pair_equal_spec in Heq. split; [lia|exact Hl].
  - intros (Hd & Hl). exists (sr - r), (sc - c).
    split; [unfold unit_step; lia|]. split; [f_equal; lia|exact Hl].
Qed.

Lemma King_moves_rule_witness :
  exists ms,
    pseudo_legal_moves 0 (mkPiece King WHITE) initial_board 7 4 = Ret ms /\
    forall sr sc, In (sr, sc) ms <->
      Z.max (Z.abs (sr - 7)) (Z.abs (sc - 4)) = 1 /\
      (empty_square initial_board sr sc \/
       opponent_square (mkPiece King WHITE) initial_board sr sc).
Proof.
  apply (King_moves_rule 0 (mkPiece King WHITE) initial_board 7 4).
  - exact initial_board_wf.
  - reflexivity.
Defined.

(** X2: a knight's pseudo-legal moves are exactly the squares two rows and
    one column away, or one row and two columns away, that are on the board
    and empty or held by the other colour; what stands in between does not
    matter. *)
Theorem Knight_moves_rule (fuel : nat) (p : Piece) (b : Board) (r c : Z) :
  wf_board b -> kind p = Knight ->
  exists ms,
    pseudo_legal_moves fuel p b r c = Ret ms /\
    forall sr sc, In (sr, sc) ms <->
      (Z.abs (sr - r) = 2 /\ Z.abs (sc - c) = 1 \/
       Z.abs (sr - r) = 1 /\ Z.abs (sc - c) = 2) /\
      (empty_square b sr sc \/ opponent_square p b sr sc).
Proof.
  intros Hwf Hk.
  destruct (Knight_moves_spec p b r c Hwf) as (ms & Hms & Hs).
  exists ms. split; [unfold pseudo_legal_moves; rewrite Hk; exact Hms|].
  intros sr sc. rewrite Hs, <- landable_iff by assumption. split.
  - intros (dr & dc & Hd & Heq & Hl).
    apply pair_equal_spec in Heq. split; [|exact Hl]. simpl in Hd.
    repeat (destruct Hd as [Hd|Hd]; [inversion Hd; subst; lia|]). destruct Hd.
  - intros (Hd & Hl). exists (sr - r), (sc - c).
    split; [|split; [f_equal; lia|exact Hl]].
    assert (Hr : sr - r = -2 \/ sr - r = -1 \/ sr - r = 1 \/ sr - r = 2) by lia.
    assert (Hc : sc - c = -2 \/ sc - c = -1 \/ sc - c = 1 \/ sc - c = 2) by lia.
    destruct Hr as [Hr|[Hr|[Hr|Hr]]], Hc as [Hc|[Hc|[Hc|Hc]]];
      rewrite Hr, Hc; simpl; first [solve [auto 10] | exfalso; lia].
Qed.

Lemma Knight_moves_rule_witness :
  exists ms,
    pseudo_legal_moves 0 (mkPiece Knight WHITE) initial_board 7 1 = Ret ms /\
    forall sr sc, In (sr, sc) ms <->
      (Z.abs (sr - 7) = 2 /\ Z.abs (sc - 1) = 1 \/
       Z.abs (sr - 7) = 1 /\ Z.abs (sc - 1) = 2) /\
      (empty_square initial_board sr sc \/
       opponent_square (mkPiece Knight WHITE) initial_board sr sc).
Proof.
  apply (Knight_moves_rule 0 (mkPiece Knight WHITE) initial_board 7 1).
  - exact initial_board_wf.
  - reflexivity.
Defined.

(** X3: a pawn has no other moves than its one-step, two-step and two
    forward-diagonal squares: every pseudo-legal pawn move goes one or two
    rows forward (toward row 0 for White, row 7 for Black), two rows only
    in its own column, and at most one column aside. *)
Theorem Pawn_moves_only_forward (fuel : nat) (p : Piece) (b : Board) (r c : Z)
  (ms : list (Z * Z)) :
  wf_board b -> kind p = Pawn ->
  pseudo_legal_moves fuel p b r c = Ret ms ->
  forall sr sc, In (sr, sc) ms ->
    let d := if Color_eqb (color p) WHITE then -1 else 1 in
    (sr = r + d /\ c - 1 <= sc <= c + 1) \/ (sr = r + 2 * d /\ sc = c).
Proof.
  intros Hwf Hk H sr sc Hin d.
  unfold pseudo_legal_moves in H. rewrite Hk in H.
  destruct (Pawn_moves_spec p b r c Hwf) as (ms' & H' & Hs).
  rewrite H' in H. inversion H; subst ms'. apply Hs in Hin.
  fold (pawn_dir (color p)) in d. subst d.
  destruct Hin as [(Heq & _)|[(Heq & _)|(dc & Hdc & Heq & _)]];
    apply pair_equal_spec in Heq; lia.
Qed.

Lemma Pawn_moves_only_forward_witness :
  (4 = 6 + -1 /\ 4 - 1 <= 4 <= 4 + 1) \/ (4 = 6 + 2 * -1 /\ 4 = 4).
Proof.
  apply (Pawn_moves_only_forward 0 (mkPiece Pawn WHITE) initial_board 6 4
           [(5, 4); (4, 4)]).
  - exact initial_board_wf.
  - reflexivity.
  - reflexivity.
  - right. left. reflexivity.
Defined.

(** X4: no generator, for any piece and from any origin, yields a square
    held by the mover's own colour or the origin itself: every square it
    returns is on the board and empty or held by the other colour.  So for
    a destination among the pseudo-legal moves the same-colour test of
    [move] cannot hold. *)
Theorem moves_never_onto_own_piece (fuel : nat) (p : Piece) (b : Board) (r c : Z)
  (ms : list (Z * Z)) :
  wf_board b ->
  pseudo_legal_moves fuel p b r c = Ret ms ->
  forall sr sc, In (sr, sc) ms ->
    (empty_square b sr sc \/ opponent_square p b sr sc) /\
    (sr, sc) <> (r, c) /\
    ~ (exists t, Board_at b sr sc = Ret (Some t) /\ color t = color p).
Proof.
  intros Hwf H sr sc Hin.
  destruct (pseudo_legal_moves_sound fuel p b r c ms Hwf H _ Hin) as [Hl Hne].
  apply landable_iff in Hl; [|assumption].
  split; [exact Hl|]. split; [exact Hne|].
  intros (t & Ht & Hc).
  destruct Hl as [(_ & He)|(_ & t' & Ht' & Hc')]; rewrite Ht in *.
  - discriminate.
  - inversion Ht'; subst t'. contradiction.
Qed.

Lemma moves_never_onto_own_piece_witness :
  (empty_square initial_board 5 0 \/
   opponent_square (mkPiece Knight WHITE) initial_board 5 0) /\
  (5, 0) <> (7, 1) /\
  ~ (exists t, Board_at initial_board 5 0 = Ret (Some t) /\
               color t = color (mkPiece Knight WHITE)).
Proof.
  apply (moves_never_onto_own_piece 0 (mkPiece Knight WHITE) initial_board 7 1
           [(5, 0); (5, 2)]).
  - exact initial_board_wf.
  - reflexivity.
  - left. reflexivity.
Defined.

(** ** The queen as rook and bishop *)

Lemma bind_Ret_r {A : Type} (m : outcome A) : bind m (fun a => Ret a) = m.
Proof. destruct m; reflexivity. Qed.

Lemma for_each_app {A B : Type} (xs ys : list A) (body : A -> outcome (list B)) :
  for_each (xs ++ ys) body =
  (m1 <- for_each xs body ;; m2 <- for_each ys body ;; Ret (m1 ++ m2)).
Proof.
  induction xs as [|x xs IH]; simpl.
  - symmetry. apply bind_Ret_r.
  - rewrite IH. destruct (body x) as [here| |]; simpl; try reflexivity.
    destruct (for_each xs body) as [m1| |]; simpl; try reflexivity.
    destruct (for_each ys body) as [m2| |]; simpl; try reflexivity.
    rewrite app_assoc. reflexivity.
Qed.

Lemma for_each_ext {A B : Type} (xs : list A) (f g : A -> outcome (list B)) :
  (forall x, f x = g x) -> for_each xs f = for_each xs g.
Proof.
  intros H. induction xs as [|x xs IH]; simpl; [reflexivity|].
  rewrite H, IH. reflexivity.
Qed.

Lemma line_walk_color (fuel : nat) (p p' : Piece) (b : Board) (rr cc dr dc : Z) :
  color p = color p' ->
  line_walk fuel p b rr cc dr dc = line_walk fuel p' b rr cc dr dc.
Proof.
  intros Hc. revert rr cc. induction fuel as [|n IH]; intros rr cc; simpl.
  - reflexivity.
  - destruct (in_bounds rr cc); [|reflexivity].
    destruct (Board_at b rr cc) as [[t|]| |]; simpl; try reflexivity.
    + rewrite Hc. reflexivity.
    + rewrite IH. reflexivity.
Qed.

Lemma line_moves_color (fuel : nat) (p p' : Piece) (b : Board) (r c : Z)
  (deltas : list (Z * Z)) :
  color p = color p' ->
  line_moves fuel p b r c deltas = line_moves fuel p' b r c deltas.
Proof.
  intros Hc. unfold line_moves. apply for_each_ext.
  intros [dr dc]. apply line_walk_color. assumption.
Qed.

(** X5: from any square of any board, the list of a queen's pseudo-legal
    moves is the list of a rook's followed by the list of a bishop's of the
    same colour; the queen's call raises or is cut off exactly as the first
    of the two that does. *)
Theorem Queen_moves_rook_then_bishop (fuel : nat) (q rk bp : Piece) (b : Board)
  (r c : Z) :
  kind q = Queen -> kind rk = Rook -> kind bp = Bishop ->
  color rk = color q -> color bp = color q ->
  pseudo_legal_moves fuel q b r c =
  (m1 <- pseudo_legal_moves fuel rk b r c ;;
   m2 <- pseudo_legal_moves fuel bp b r c ;;
   Ret (m1 ++ m2)).
Proof.
  intros Hq Hr Hb Hcr Hcb. unfold pseudo_legal_moves. rewrite Hq, Hr, Hb.
  rewrite (line_moves_color fuel rk q b r c Rook_deltas Hcr).
  rewrite (line_moves_color fuel bp q b r c Bishop_deltas Hcb).
  unfold line_moves.
  change Queen_deltas with (Rook_deltas ++ Bishop_deltas).
  apply for_each_app.
Qed.

Lemma Queen_moves_rook_then_bishop_witness :
  pseudo_legal_moves 9 (mkPiece Queen WHITE) (rook_d4_board BLACK) 4 3 =
  (m1 <- pseudo_legal_moves 9 (mkPiece Rook WHITE) (rook_d4_board BLACK) 4 3 ;;
   m2 <- pseudo_legal_moves 9 (mkPiece Bishop WHITE) (rook_d4_board BLACK) 4 3 ;;
   Ret (m1 ++ m2)).
Proof.
  apply (Queen_moves_rook_then_bishop 9 (mkPiece Queen WHITE)
           (mkPiece Rook WHITE) (mkPiece Bishop WHITE));
    reflexivity.
Defined.

(** ** [Board.move] and the shape of the grid *)

Lemma norm_index_lt (n : nat) (i : Z) (j : nat) :
  norm_index n i = Ret j -> (j < n)%nat.
Proof.
  unfold norm_index. intros H.
  destruct (Z.ltb_spec i 0);
    match type of H with
    | (if ?c then _ else _) = _ => destruct c eqn:Hc; [|discriminate]
    end;
    apply andb_true_iff in Hc; destruct Hc as [H1 H2];
    apply Z.leb_le in H1; apply Z.ltb_lt in H2;
    inversion H; subst; lia.
Qed.

Lemma norm_index_Ret_iff (i : Z) :
  (exists j, norm_index 8 i = Ret j) <-> index_ok i.
Proof.
  unfold norm_index, index_ok. split.
  - intros (j & H).
    destruct (Z.ltb_spec i 0);
      match type of H with
      | (if ?c then _ else _) = _ => destruct c eqn:Hc; [|discriminate]
      end;
      apply andb_true_iff in Hc; destruct Hc as [H1 H2];
      apply Z.leb_le in H1; apply Z.ltb_lt in H2; lia.
  - intros H.
    destruct (Z.ltb_spec i 0).
    + destruct (Z.leb_spec 0 (i + Z.of_nat 8)); [|lia].
      destruct (Z.ltb_spec (i + Z.of_nat 8) (Z.of_nat 8)); [|lia].
      eexists; reflexivity.
    + destruct (Z.leb_spec 0 i); [|lia].
      destruct (Z.ltb_spec i (Z.of_nat 8)); [|lia].
      eexists; reflexivity.
Qed.

Lemma norm_index_off (i : Z) :
  ~ index_ok i -> norm_index 8 i = Raise IndexError.
Proof.
  intros H. pose proof (norm_index_Ret_iff i) as Hiff.
  unfold norm_index in *.
  match goal with
  | |- (if ?c then _ else _) = _ => destruct c; [|reflexivity]
  end.
  exfalso. apply H. apply Hiff. eexists; reflexivity.
Qed.

Lemma list_getitem_In {A : Type} (l : list A) (i : Z) (x : A) :
  list_getitem l i = Ret x -> In x l.
Proof.
  unfold list_getitem. intros H.
  apply bind_Ret_inv in H. destruct H as (j & _ & H).
  destruct (nth_error l j) as [y|] eqn:Hn; [|discriminate].
  inversion H; subst. eapply nth_error_In; eassumption.
Qed.

Lemma list_getitem_total {A : Type} (l : list A) (i : Z) :
  List.length l = 8%nat -> index_ok i -> exists x, list_getitem l i = Ret x.
Proof.
  intros Hl Hi. unfold list_getitem. rewrite Hl.
  destruct (proj2 (norm_index_Ret_iff i) Hi) as (j & Hj).
  rewrite Hj. simpl. apply norm_index_lt in Hj.
  destruct (nth_error l j) as [x|] eqn:Hn; [eauto|].
  apply nth_error_None in Hn. lia.
Qed.

Lemma Board_at_off (b : Board) (r c : Z) :
  wf_board b -> ~ (index_ok r /\ index_ok c) ->
  Board_at b r c = Raise IndexError.
Proof.
  intros [Hl Hrows] Hoff. unfold Board_at.
  assert (Hdec : index_ok r \/ ~ index_ok r) by (unfold index_ok; lia).
  destruct Hdec as [Hr|Hr].
  - destruct (list_getitem_total (grid b) r Hl Hr) as (row & Hrow).
    rewrite Hrow. simpl.
    assert (Hlen : List.length row = 8%nat).
    { rewrite Forall_forall in Hrows. apply Hrows.
      eapply list_getitem_In; eassumption. }
    unfold list_getitem. rewrite Hlen.
    rewrite norm_index_off; [reflexivity|]. tauto.
  - unfold list_getitem. rewrite Hl.
    rewrite norm_index_off by assumption. reflexivity.
Qed.

Lemma Board_at_total (b : Board) (r c : Z) :
  wf_board b -> index_ok r -> index_ok c -> exists t, Board_at b r c = Ret t.
Proof.
  intros [Hl Hrows] Hr Hc. unfold Board_at.
  destruct (list_getitem_total (grid b) r Hl Hr) as (row & Hrow).
  rewrite Hrow. simpl. apply list_getitem_total; [|assumption].
  rewrite Forall_forall in Hrows. apply Hrows.
  eapply list_getitem_In; eassumption.
Qed.

Lemma grid_setitem_wf (b b' : Board) (r c : Z) (v : option Piece) :
  wf_board b -> grid_setitem b r c v = Ret b' -> wf_board b'.
Proof.
  intros [Hl Hrows] H. unfold grid_setitem in H.
  apply bind_Ret_inv in H. destruct H as (row & Hrow & H).
  apply bind_Ret_inv in H. destruct H as (row' & Hrow' & H).
  apply bind_Ret_inv in H. destruct H as (g' & Hg' & H).
  inversion H; subst b'; clear H.
  assert (Hlen : List.length row = 8%nat).
  { rewrite Forall_forall in Hrows. apply Hrows.
    eapply list_getitem_In; eassumption. }
  unfold list_setitem in Hrow', Hg'.
  apply bind_Ret_inv in Hrow'. destruct Hrow' as (j & _ & Hrow').
  apply bind_Ret_inv in Hg'. destruct Hg' as (j' & _ & Hg').
  inversion Hrow'; subst row'. inversion Hg'; subst g'.
  split; simpl.
  - rewrite replace_nth_length. assumption.
  - apply replace_nth_Forall; [assumption|].
    rewrite replace_nth_length. assumption.
Qed.

Lemma updating_wf (b : Board) (r c : Z) (v : option Piece) :
  wf_board b ->
  wf_board (snd (updating (fun b0 => grid_setitem b0 r c v) b)).
Proof.
  intros Hwf. unfold updating.
  destruct (grid_setitem b r c v) as [b'| |] eqn:H; simpl; try assumption.
  eapply grid_setitem_wf; eassumption.
Qed.

(** X6: [Board.move] keeps the grid 8x8 whatever its arguments and
    whatever it does: return success or failure, raise, or be cut off. *)
Theorem Board_move_keeps_grid (fuel : nat) (b : Board) (src dst : Z * Z) :
  wf_board b -> wf_board (snd (Board_move fuel src dst b)).
Proof.
  intros Hwf. destruct src as [r1 c1], dst as [r2 c2].
  unfold Board_move, sbind, reading, sret.
  destruct (Board_at b r1 c1) as [[p|]| |]; try exact Hwf.
  destruct (Board_at b r2 c2) as [t| |]; try exact Hwf.
  match goal with
  | |- context [if ?c then _ else _] => destruct c; [exact Hwf|]
  end.
  destruct (pseudo_legal_moves fuel p b r1 c1) as [ms| |]; try exact Hwf.
  destruct (negb (mem_sq (r2, c2) ms)); [exact Hwf|].
  pose proof (updating_wf b r2 c2 (Some p) Hwf) as H1.
  destruct (updating (fun b0 => grid_setitem b0 r2 c2 (Some p)) b)
    as [[[]| |] b1]; try exact H1.
  cbn [snd] in H1.
  pose proof (updating_wf b1 r1 c1 None H1) as H2.
  destruct (updating (fun b0 => grid_setitem b0 r1 c1 None) b1)
    as [[[]| |] b2]; try exact H2.
  cbn [snd] in H2.
  match goal with
  | |- context [if ?c then _ else _] => destruct c; [|exact H2]
  end.
  pose proof (updating_wf b2 r2 c2 (Some (mkPiece Queen (color p))) H2) as H3.
  destruct (updating
              (fun b0 => grid_setitem b0 r2 c2 (Some (mkPiece Queen (color p)))) b2)
    as [[[]| |] b3]; exact H3.
Qed.

Lemma Board_move_keeps_grid_witness :
  wf_board (snd (Board_move 9 (-1, 0) (0, 0) initial_board)).
Proof.
  apply (Board_move_keeps_grid 9 initial_board (-1, 0) (0, 0)).
  exact initial_board_wf.
Defined.

(** X7: a destination off the board is never moved to.  With the source
    on the board, [Board.move] returns failure when the source is empty or
    when both destination indices are ones Python accepts (from -8 to 7),
    and raises [IndexError] otherwise; the board is unchanged in each case. *)
Theorem Board_move_off_board_target (fuel : nat) (b : Board) (r1 c1 r2 c2 : Z) :
  wf_board b -> (8 < fuel)%nat ->
  in_bounds r1 c1 = true -> in_bounds r2 c2 = false ->
  (Board_at b r1 c1 = Ret None ->
   Board_move fuel (r1, c1) (r2, c2) b = (Ret (false, EmptyString), b)) /\
  (forall p, Board_at b r1 c1 = Ret (Some p) ->
     (index_ok r2 /\ index_ok c2 ->
      Board_move fuel (r1, c1) (r2, c2) b = (Ret (false, EmptyString), b)) /\
     (~ (index_ok r2 /\ index_ok c2) ->
      Board_move fuel (r1, c1) (r2, c2) b = (Raise IndexError, b))).
Proof.
  intros Hwf Hfuel H1 H2. unfold Board_move, sbind, reading, sret. split.
  - intros Hp. rewrite Hp. reflexivity.
  - intros p Hp. rewrite Hp. split.
    + intros [Hr Hc].
      destruct (Board_at_total b r2 c2 Hwf Hr Hc) as (t & Ht). rewrite Ht.
      match goal with
      | |- context [if ?c then _ else _] => destruct c; [reflexivity|]
      end.
      destruct (pseudo_legal_moves_total fuel p b r1 c1 Hwf Hfuel)
        as (ms & Hms & Hl).
      rewrite Hms.
      destruct (mem_sq (r2, c2) ms) eqn:Hmem; [|reflexivity].
      apply mem_sq_In in Hmem. destruct (Hl _ Hmem) as [Hb _].
      cbn [fst snd] in Hb. congruence.
    + intros Hoff. rewrite (Board_at_off b r2 c2 Hwf Hoff). reflexivity.
Qed.

Lemma Board_move_off_board_target_witness :
  Board_move 9 (6, 4) (8, 4) initial_board = (Raise IndexError, initial_board) /\
  Board_move 9 (6, 4) (-1, 4) initial_board = (Ret (false, EmptyString), initial_board).
Proof.
  destruct (Board_move_off_board_target 9 initial_board 6 4 8 4
              initial_board_wf ltac:(lia) eq_refl eq_refl) as [_ H8].
  destruct (Board_move_off_board_target 9 initial_board 6 4 (-1) 4
              initial_board_wf ltac:(lia) eq_refl eq_refl) as [_ Hm].
  split.
  - apply (H8 (mkPiece Pawn WHITE) eq_refl). unfold index_ok. lia.
  - apply (Hm (mkPiece Pawn WHITE) eq_refl). unfold index_ok. lia.
Defined.

(** X8: a source index Python rejects (below -8 or above 7) makes
    [Board.move] raise [IndexError] before anything else, the board
    unchanged. *)
Theorem Board_move_off_grid_source (fuel : nat) (b : Board) (r1 c1 : Z)
  (dst : Z * Z) :
  wf_board b -> ~ (index_ok r1 /\ index_ok c1) ->
  Board_move fuel (r1, c1) dst b = (Raise IndexError, b).
Proof.
  intros Hwf Hoff. destruct dst as [r2 c2].
  unfold Board_move, sbind, reading.
  rewrite (Board_at_off b r1 c1 Hwf Hoff). reflexivity.
Qed.

Lemma Board_move_off_grid_source_witness :
  Board_move 9 (8, 0) (7, 0) initial_board = (Raise IndexError, initial_board).
Proof.
  apply (Board_move_off_grid_source 9 initial_board 8 0 (7, 0)).
  - exact initial_board_wf.
  - unfold index_ok. lia.
Defined.

(** A source index from -8 to -1 is accepted: the piece is read by
    wrap-around, its moves are generated from the index as given.  From the
    starting position the rook read at row -1 takes the rook on row 0. *)
Example Board_move_negative_source :
  exists b',
    Board_move 9 (-1, 0) (0, 0) initial_board = (Ret (true, EmptyString), b') /\
    Board_at b' 0 0 = Ret (Some (mkPiece Rook WHITE)) /\
    Board_at b' 7 0 = Ret None.
Proof. eexists. repeat split. Qed.

(** ** Counting pieces *)

Lemma filter_replace_nth {A : Type} (f : A -> bool) (l : list A) (j : nat)
  (x d : A) :
  (j < List.length l)%nat ->
  (List.length (filter f (replace_nth l j x)) + (if f (nth j l d) then 1 else 0)
   = List.length (filter f l) + (if f x then 1 else 0))%nat.
Proof.
  revert j. induction l as [|a l IH]; intros j Hj; simpl in Hj; [lia|].
  destruct j as [|j]; simpl.
  - destruct (f a), (f x); simpl; lia.
  - specialize (IH j ltac:(lia)). destruct (f a); simpl; lia.
Qed.

Lemma concat_replace_nth_count {A : Type} (f : A -> bool) (rows : list (list A))
  (i : nat) (row' : list A) :
  (i < List.length rows)%nat ->
  (List.length (filter f (concat (replace_nth rows i row')))
   + List.length (filter f (nth i rows []))
   = List.length (filter f (concat rows)) + List.length (filter f row'))%nat.
Proof.
  revert i. induction rows as [|row rows IH]; intros i Hi; simpl in Hi; [lia|].
  destruct i as [|i]; simpl; rewrite !filter_app, !length_app.
  - lia.
  - specialize (IH i ltac:(lia)). lia.
Qed.

Lemma count_set_cell (b : Board) (r c : Z) (v : option Piece) (col : Color) :
  wf_board b -> in_bounds r c = true ->
  (count_color (set_cell b r c v) col + occ (cell b r c) col
   = count_color b col + occ v col)%nat.
Proof.
  intros Hwf Hb. apply in_bounds_iff in Hb. destruct Hb as [Hr Hc].
  pose proof (wf_row_length b r Hwf Hr) as Hlen.
  destruct Hwf as [Hl _].
  unfold count_color, set_cell, cell, occ. cbn [grid].
  set (f := fun t : option Piece =>
              match t with
              | Some p => Color_eqb (color p) col
              | None => false
              end).
  pose proof (concat_replace_nth_count f (grid b) (Z.to_nat r)
                (replace_nth (nth (Z.to_nat r) (grid b) []) (Z.to_nat c) v)
                ltac:(lia)) as H1.
  pose proof (filter_replace_nth f (nth (Z.to_nat r) (grid b) []) (Z.to_nat c)
                v None ltac:(lia)) as H2.
  assert (Hf : forall t, (if f t then 1 else 0)%nat
                         = match t with
                           | Some p => if Color_eqb (color p) col then 1%nat else 0%nat
                           | None => 0%nat
                           end).
  { intros [p|]; reflexivity. }
  rewrite !Hf in H2. lia.
Qed.

Lemma count_moved_board (b : Board) (r1 c1 r2 c2 : Z) (p : Piece) (col : Color) :
  wf_board b -> in_bounds r1 c1 = true -> in_bounds r2 c2 = true ->
  cell b r1 c1 = Some p -> (r1, c1) <> (r2, c2) ->
  (count_color (moved_board b r1 c1 r2 c2 p) col + occ (cell b r2 c2) col
   = count_color b col)%nat.
Proof.
  intros Hwf H1 H2 Hp Hne.
  pose proof (set_cell_wf b r2 c2 (Some p) Hwf H2) as Hwf1.
  pose proof (set_cell_wf _ r1 c1 None Hwf1 H1) as Hwf2.
  pose proof (count_set_cell b r2 c2 (Some p) col Hwf H2) as E1.
  pose proof (count_set_cell _ r1 c1 None col Hwf1 H1) as E2.
  pose proof (count_set_cell _ r2 c2 (Some (mkPiece Queen (color p))) col Hwf2 H2)
    as E3.
  rewrite cell_set_cell in E2 by assumption.
  rewrite !cell_set_cell in E3 by assumption.
  rewrite !Z.eqb_refl in E3. cbn [andb] in E3.
  assert (Hs : (r1 =? r2) && (c1 =? c2) = false).
  { apply andb_false_iff. rewrite !Z.eqb_neq.
    destruct (Z.eq_dec r1 r2); [right|left]; congruence. }
  assert (Hd : (r2 =? r1) && (c2 =? c1) = false).
  { apply andb_false_iff. rewrite !Z.eqb_neq.
    destruct (Z.eq_dec r2 r1); [right|left]; congruence. }
  rewrite Hs, Hp in E2. rewrite Hd in E3.
  unfold moved_board. cbn [occ color] in *.
  destruct (promotes p r2); lia.
Qed.

(** X9: an accepted move never adds a piece.  The mover's side keeps its
    number of pieces (a promoted pawn counts as before), and the other side
    loses exactly one piece when the destination was occupied and none when
    it was empty. *)
Theorem Board_move_piece_count (fuel : nat) (b b' : Board) (r1 c1 r2 c2 : Z)
  (msg : string) :
  wf_board b -> in_bounds r1 c1 = true -> in_bounds r2 c2 = true ->
  Board_move fuel (r1, c1) (r2, c2) b = (Ret (true, msg), b') ->
  exists p t,
    Board_at b r1 c1 = Ret (Some p) /\
    Board_at b r2 c2 = Ret t /\
    count_color b' (color p) = count_color b (color p) /\
    (count_color b' (Game_other (color p))
     + match t with Some _ => 1 | None => 0 end
     = count_color b (Game_other (color p)))%nat.
Proof.
  intros Hwf H1 H2 H.
  destruct (Board_move_accepted fuel b b' r1 c1 r2 c2 msg Hwf H1 H2 H)
    as (p & ms & Hp & Hsame & _ & _ & Hne & _ & ->).
  exists p, (cell b r2 c2).
  rewrite !(Board_at_cell b _ _ Hwf) by assumption. rewrite Hp.
  split; [reflexivity|]. split; [reflexivity|].
  pose proof (count_moved_board b r1 c1 r2 c2 p (color p) Hwf H1 H2 Hp Hne) as E1.
  pose proof (count_moved_board b r1 c1 r2 c2 p (Game_other (color p))
                Hwf H1 H2 Hp Hne) as E2.
  unfold occ, same_color_at in *.
  destruct (cell b r2 c2) as [t|].
  - rewrite Hsame in E1.
    assert (Ht : Color_eqb (color t) (Game_other (color p)) = true).
    { destruct (color t), (color p); simpl in *; congruence. }
    rewrite Ht in E2. split; lia.
  - split; lia.
Qed.

Lemma Board_move_piece_count_witness :
  exists p t,
    Board_at initial_board 6 4 = Ret (Some p) /\
    Board_at initial_board 4 4 = Ret t /\
    count_color (snd (Board_move 9 (6, 4) (4, 4) initial_board)) (color p)
    = count_color initial_board (color p) /\
    Nat.add
      (count_color (snd (Board_move 9 (6, 4) (4, 4) initial_board))
         (Game_other (color p)))
      (match t with Some _ => 1%nat | None => 0%nat end)
    = count_color initial_board (Game_other (color p)).
Proof.
  apply (Board_move_piece_count 9 initial_board _ 6 4 4 4 EmptyString).
  - exact initial_board_wf.
  - reflexivity.
  - reflexivity.
  - vm_compute. reflexivity.
Defined.

Lemma moved_board_no_pawn_on_last_rank (b : Board) (r1 c1 r2 c2 : Z) (p : Piece) :
  wf_board b -> in_bounds r1 c1 = true -> in_bounds r2 c2 = true ->
  (r1, c1) <> (r2, c2) ->
  no_pawn_on_last_rank b ->
  no_pawn_on_last_rank (moved_board b r1 c1 r2 c2 p).
Proof.
  intros Hwf H1 H2 Hne Hinv c Hc.
  pose proof (moved_board_wf b r1 c1 r2 c2 p Hwf H1 H2) as Hwf'.
  assert (Hb0 : in_bounds 0 c = true) by (apply in_bounds_iff; lia).
  assert (Hb7 : in_bounds 7 c = true) by (apply in_bounds_iff; lia).
  destruct (Hinv c Hc) as [I0 I7].
  rewrite (Board_at_cell b _ _ Hwf Hb0) in I0.
  rewrite (Board_at_cell b _ _ Hwf Hb7) in I7.
  rewrite !(Board_at_cell _ _ _ Hwf') by assumption.
  rewrite !cell_moved_board by assumption.
  pose proof (promotes_true p r2) as Hpr.
  split.
  - destruct ((0 =? r2) && (c =? c2)) eqn:Hd.
    + apply andb_true_iff in Hd. destruct Hd as [Hr _]. apply Z.eqb_eq in Hr.
      destruct (promotes p r2) eqn:Hp; [discriminate|].
      intros Heq. inversion Heq as [Hq]. subst p.
      assert (promotes (mkPiece Pawn WHITE) r2 = true); [|congruence].
      apply promotes_true. cbn [kind color]. auto.
    + destruct ((0 =? r1) && (c =? c1)); [discriminate|exact I0].
  - destruct ((7 =? r2) && (c =? c2)) eqn:Hd.
    + apply andb_true_iff in Hd. destruct Hd as [Hr _]. apply Z.eqb_eq in Hr.
      destruct (promotes p r2) eqn:Hp; [discriminate|].
      intros Heq. inversion Heq as [Hq]. subst p.
      assert (promotes (mkPiece Pawn BLACK) r2 = true); [|congruence].
      apply promotes_true. cbn [kind color]. auto.
    + destruct ((7 =? r1) && (c =? c1)); [discriminate|exact I7].
Qed.

(** X10: promotion leaves no pawn behind.  If no White pawn stands on row 0
    and no Black pawn on row 7, the same holds after every accepted move. *)
Theorem Board_move_no_pawn_on_last_rank (fuel : nat) (b b' : Board)
  (r1 c1 r2 c2 : Z) (msg : string) :
  wf_board b -> in_bounds r1 c1 = true -> in_bounds r2 c2 = true ->
  no_pawn_on_last_rank b ->
  Board_move fuel (r1, c1) (r2, c2) b = (Ret (true, msg), b') ->
  no_pawn_on_last_rank b'.
Proof.
  intros Hwf H1 H2 Hinv H.
  destruct (Board_move_accepted fuel b b' r1 c1 r2 c2 msg Hwf H1 H2 H)
    as (p & ms & _ & _ & _ & _ & Hne & _ & ->).
  apply moved_board_no_pawn_on_last_rank; assumption.
Qed.

Lemma empty_board_no_pawn_on_last_rank (b : Board) :
  wf_board b ->
  (forall c, 0 <= c < 8 -> cell b 0 c = None /\ cell b 7 c = None) ->
  no_pawn_on_last_rank b.
Proof.
  intros Hwf H c Hc. destruct (H c Hc) as [H0 H7].
  rewrite !(Board_at_cell b _ _ Hwf) by (apply in_bounds_iff; lia).
  rewrite H0, H7. split; discriminate.
Qed.

Lemma Board_move_no_pawn_on_last_rank_witness :
  no_pawn_on_last_rank
    (snd (Board_move 0 (1, 0) (0, 0)
            (set_cell empty_board 1 0 (Some (mkPiece Pawn WHITE))))).
Proof.
  apply (Board_move_no_pawn_on_last_rank 0
           (set_cell empty_board 1 0 (Some (mkPiece Pawn WHITE))) _
           1 0 0 0 EmptyString).
  - exact (set_cell_wf empty_board 1 0 _ empty_board_wf eq_refl).
  - reflexivity.
  - reflexivity.
  - apply empty_board_no_pawn_on_last_rank.
    + exact (set_cell_wf empty_board 1 0 _ empty_board_wf eq_refl).
    + intros c Hc.
      assert (Hcs : c = 0 \/ c = 1 \/ c = 2 \/ c = 3 \/ c = 4 \/ c = 5 \/ c = 6
                    \/ c = 7) by lia.
      repeat (destruct Hcs as [Hcs|Hcs]; [subst c; split; reflexivity|]).
      subst c; split; reflexivity.
  - vm_compute. reflexivity.
Defined.

(** ** The commands of the loop *)

Lemma rc_to_algebraic_parse (r c : Z) :
  in_bounds r c = true ->
  exists s, rc_to_algebraic r c = Ret s /\ algebraic_to_rc s = Ret (Some (r, c)).
Proof.
  intros H. apply in_bounds_iff in H. destruct H as [Hr Hc].
  assert (Hrs : r = 0 \/ r = 1 \/ r = 2 \/ r = 3 \/ r = 4 \/ r = 5 \/ r = 6 \/ r = 7)
    by lia.
  assert (Hcs : c = 0 \/ c = 1 \/ c = 2 \/ c = 3 \/ c = 4 \/ c = 5 \/ c = 6 \/ c = 7)
    by lia.
  clear Hr Hc.
  repeat (destruct Hrs as [Hrs|Hrs]); subst r;
    repeat (destruct Hcs as [Hcs|Hcs]); subst c;
    (eexists; split; reflexivity).
Qed.

Lemma for_each_names {A B : Type} (Q : B -> A -> Prop) (f : A -> outcome B)
  (xs : list A) :
  (forall x, In x xs -> exists y, f x = Ret y /\ Q y x) ->
  exists ys,
    for_each xs (fun x => y <- f x ;; Ret [y]) = Ret ys /\ Forall2 Q ys xs.
Proof.
  induction xs as [|x xs IH]; intros H; simpl.
  - exists []. split; [reflexivity|constructor].
  - destruct (H x (or_introl eq_refl)) as (y & Hy & Hq).
    destruct IH as (ys & Hys & Hall); [intros; apply H; right; assumption|].
    rewrite Hy. simpl. rewrite Hys. simpl.
    exists (y :: ys). split; [reflexivity|]. constructor; assumption.
Qed.

Lemma sfor_print_lines (h : list string) (w : World) :
  sfor h (fun m => print (PrintLine m)) w
  = (Ret tt, mkWorld (self w) (stdout w ++ map PrintLine h)).
Proof.
  revert w. induction h as [|m h IH]; intros w; simpl.
  - unfold sret. rewrite app_nil_r. destruct w; reflexivity.
  - unfold sbind, print at 1. rewrite IH. cbn [self stdout].
    rewrite <- app_assoc. reflexivity.
Qed.

Lemma split_from_nil (cur s : string) :
  split_from cur s = [] -> cur = EmptyString /\ rstrip s = EmptyString.
Proof.
  revert cur. induction s as [|a s IH]; intros cur H; simpl in H.
  - destruct cur; [auto|discriminate].
  - destruct (is_space a) eqn:Ha.
    + destruct cur; [|discriminate].
      destruct (IH _ H) as [_ Hr]. split; [reflexivity|].
      simpl. rewrite Hr, Ha. reflexivity.
    + destruct (IH _ H) as [Hc _]. destruct cur; discriminate.
Qed.

Lemma prefix_moves (raw : string) :
  String.prefix "moves " raw = true ->
  exists rest, raw = ("moves " ++ rest)%string.
Proof.
  intros H.
  destruct raw as [|a0 [|a1 [|a2 [|a3 [|a4 [|a5 rest]]]]]];
    simpl in H;
    repeat match type of H with
           | (if ?d then _ else _) = _ => destruct d; [subst|discriminate]
           end;
    try discriminate.
  exists rest. reflexivity.
Qed.

Lemma moves_argument (raw : string) :
  rstrip raw = raw -> String.prefix "moves " raw = true ->
  exists arg rest, split raw = "moves"%string :: arg :: rest.
Proof.
  intros Hr Hp. destruct (prefix_moves raw Hp) as (rest & ->).
  change (split ("moves " ++ rest))
    with ("moves"%string :: split_from EmptyString rest).
  destruct (split_from EmptyString rest) as [|arg l] eqn:Hs; [|eauto].
  exfalso. destruct (split_from_nil _ _ Hs) as [_ Hrest].
  simpl in Hr. rewrite Hrest in Hr. simpl in Hr. discriminate.
Qed.

Lemma Board_legal_moves_from_total (fuel : nat) (b : Board) (r c : Z) :
  wf_board b -> (8 < fuel)%nat -> in_bounds r c = true ->
  exists ms,
    Board_legal_moves_from fuel b r c = Ret ms /\
    (forall sq, In sq ms -> in_bounds (fst sq) (snd sq) = true) /\
    (Board_at b r c = Ret None -> ms = []) /\
    (forall p, Board_at b r c = Ret (Some p) ->
               pseudo_legal_moves fuel p b r c = Ret ms).
Proof.
  intros Hwf Hfuel Hb. unfold Board_legal_moves_from.
  rewrite (Board_at_cell b r c Hwf Hb). simpl.
  destruct (cell b r c) as [p|].
  - destruct (pseudo_legal_moves_total fuel p b r c Hwf Hfuel) as (ms & Hms & Hl).
    exists ms. split; [assumption|]. split; [|split].
    + intros sq Hin. apply (Hl sq Hin).
    + discriminate.
    + intros p' Hp'. inversion Hp'; subst. assumption.
  - exists []. split; [reflexivity|]. split; [intros sq []|].
    split; [reflexivity|discriminate].
Qed.

Lemma input_loop_move_step (fuel : nat) (parts : list string) (w : World) :
  wf_board (board (self w)) -> (8 < fuel)%nat ->
  exists w',
    input_loop_move fuel parts w = (Ret Continue, w') /\
    (w' = w \/
     (played fuel (self w) (self w') /\
      stdout w' = stdout w ++ [PrintBoard (board (self w'))])).
Proof.
  intros Hwf Hfuel.
  assert (Hcase :
    (exists p0 p1 r1 c1 r2 c2,
       parts = [p0; p1] /\ algebraic_to_rc p0 = Ret (Some (r1, c1)) /\
       algebraic_to_rc p1 = Ret (Some (r2, c2))) \/
    (forall p0 p1 src dst,
       ~ (parts = [p0; p1] /\ algebraic_to_rc p0 = Ret (Some src) /\
          algebraic_to_rc p1 = Ret (Some dst)))).
  { destruct parts as [|p0 [|p1 [|x rest]]];
      try (right; intros ? ? ? ? (H & _); discriminate).
    destruct (algebraic_to_rc_total p0) as [[[r1 c1]|] Hp0];
      destruct (algebraic_to_rc_total p1) as [[[r2 c2]|] Hp1].
    - left. exists p0, p1, r1, c1, r2, c2. auto.
    - right. intros ? ? ? ? (H & _ & H1). inversion H; subst. congruence.
    - right. intros ? ? ? ? (H & H0 & _). inversion H; subst. congruence.
    - right. intros ? ? ? ? (H & H0 & _). inversion H; subst. congruence. }
  destruct Hcase as [(p0 & p1 & r1 & c1 & r2 & c2 & -> & Hp0 & Hp1)|Hnot].
  2:{ exists w. split; [apply input_loop_move_ignored; assumption|auto]. }
  pose proof (algebraic_to_rc_in_bounds p0 r1 c1 Hp0) as H1.
  pose proof (algebraic_to_rc_in_bounds p1 r2 c2 Hp1) as H2.
  rewrite (input_loop_move_unfold fuel p0 p1 w r1 c1 r2 c2 Hp0 Hp1 Hwf Hfuel).
  destruct (cell (board (self w)) r1 c1) as [p|] eqn:Hp; [|eauto].
  destruct (Color_eqb (color p) (turn (self w))) eqn:Hturn; cbn [negb]; [|eauto].
  apply Color_eqb_eq in Hturn.
  destruct (Board_move fuel (r1, c1) (r2, c2) (board (self w)))
    as [[[[|] m]| |] bd'] eqn:Hmove; eauto.
  destruct (Board_move_accepted fuel _ bd' r1 c1 r2 c2 m Hwf H1 H2 Hmove)
    as (p' & ms & _ & _ & _ & _ & _ & -> & _).
  eexists. split; [reflexivity|]. right. cbn [self stdout]. split.
  - exists p0, p1, r1, c1, r2, c2, p, bd'.
    rewrite (Board_at_cell _ _ _ Hwf H1), Hp. auto 10.
  - reflexivity.
Qed.

Lemma played_wf (fuel : nat) (g g' : Game) :
  wf_board (board g) -> played fuel g g' -> wf_board (board g').
Proof.
  intros Hwf (p0 & p1 & r1 & c1 & r2 & c2 & p & b' & H0 & H1 & _ & _ & Hm & ->).
  cbn [applied Game_switch_turn board].
  pose proof (algebraic_to_rc_in_bounds p0 r1 c1 H0) as Hb1.
  pose proof (algebraic_to_rc_in_bounds p1 r2 c2 H1) as Hb2.
  destruct (Board_move_accepted fuel _ b' r1 c1 r2 c2 _ Hwf Hb1 Hb2 Hm)
    as (p' & ms & _ & _ & _ & _ & _ & _ & ->).
  apply moved_board_wf; assumption.
Qed.

(** X13: the commands [quit], [exit], [board] and [history] never change
    the game.  [quit] and [exit] leave the loop and print nothing; [board]
    prints the board once; [history] prints the entries in the order they
    were appended, one line each. *)
Theorem read_only_commands (fuel : nat) (w : World) :
  input_loop_body fuel "quit" w = (Ret Break, w) /\
  input_loop_body fuel "exit" w = (Ret Break, w) /\
  input_loop_body fuel "board" w
  = (Ret Continue, mkWorld (self w) (stdout w ++ [PrintBoard (board (self w))])) /\
  input_loop_body fuel "history" w
  = (Ret Continue,
     mkWorld (self w) (stdout w ++ map PrintLine (history (self w)))).
Proof.
  repeat split.
  unfold input_loop_body. cbn [String.eqb Ascii.eqb Bool.eqb orb andb].
  change (String.eqb "history" "quit") with false.
  change (String.eqb "history" "exit") with false.
  change (String.eqb "history" "board") with false.
  change (String.eqb "history" "history") with true.
  cbn [orb]. unfold sbind, reading. rewrite sfor_print_lines. reflexivity.
Qed.

Lemma rstrip_idem (s : string) : rstrip (rstrip s) = rstrip s.
Proof.
  induction s as [|a s IH]; [reflexivity|]. simpl.
  destruct (rstrip s) as [|b t] eqn:Hr.
  - destruct (is_space a) eqn:Ha; [reflexivity|]. simpl. rewrite Ha. reflexivity.
  - change (rstrip (String a (String b t)))
      with (match rstrip (String b t) with
            | EmptyString => if is_space a then EmptyString else String a EmptyString
            | String c u => String a (String c u)
            end).
    rewrite IH. reflexivity.
Qed.

Lemma moves_command_step (fuel : nat) (raw : string) (w : World) :
  wf_board (board (self w)) -> (8 < fuel)%nat ->
  rstrip raw = raw -> String.prefix "moves " raw = true ->
  exists w' arg rest,
    input_loop_body fuel raw w = (Ret Continue, w') /\
    self w' = self w /\
    split raw = "moves"%string :: arg :: rest /\
    ((algebraic_to_rc arg = Ret None /\ stdout w' = stdout w) \/
     (exists r c ms names,
        algebraic_to_rc arg = Ret (Some (r, c)) /\
        Board_legal_moves_from fuel (board (self w)) r c = Ret ms /\
        (Board_at (board (self w)) r c = Ret None -> ms = []) /\
        Forall2 (fun n sq => algebraic_to_rc n = Ret (Some sq)) names ms /\
        stdout w' = stdout w ++ [PrintLine (join ", " names)])).
Proof.
  intros Hwf Hfuel Hr Hp.
  destruct (moves_argument raw Hr Hp) as (arg & rest & Hsplit).
  destruct (prefix_moves raw Hp) as (tail & Hraw).
  unfold input_loop_body. rewrite Hp.
  assert (Hq : String.eqb raw "quit" || String.eqb raw "exit" = false)
    by (subst raw; reflexivity).
  assert (Hb : String.eqb raw "board" = false) by (subst raw; reflexivity).
  assert (Hh : String.eqb raw "history" = false) by (subst raw; reflexivity).
  rewrite Hq, Hb, Hh, Hsplit.
  unfold sbind, reading, sret, print.
  rewrite (list_getitem_in_range ("moves"%string :: arg :: rest) 1 arg)
    by (cbn [List.length]; lia).
  change (nth (Z.to_nat 1) ("moves"%string :: arg :: rest) arg) with arg.
  cbv beta iota.
  destruct (algebraic_to_rc_total arg) as [[[r c]|] Harg]; rewrite Harg;
    cbv beta iota.
  2:{ exists w, arg, rest. repeat (split; [reflexivity|]).
      left. split; [exact Harg|reflexivity]. }
  pose proof (algebraic_to_rc_in_bounds arg r c Harg) as Hin.
  destruct (Board_legal_moves_from_total fuel _ r c Hwf Hfuel Hin)
    as (ms & Hms & Hall & Hnone & _).
  rewrite Hms. cbv beta iota.
  destruct (for_each_names (fun n sq => algebraic_to_rc n = Ret (Some sq))
              (fun m => rc_to_algebraic (fst m) (snd m)) ms)
    as (names & Hnames & Hparse).
  { intros [sr sc] Hsq. cbn [fst snd].
    apply rc_to_algebraic_parse. apply (Hall _ Hsq). }
  rewrite Hnames. cbv beta iota.
  eexists. exists arg, rest. split; [reflexivity|]. cbn [self stdout].
  split; [reflexivity|]. split; [reflexivity|]. right.
  exists r, c, ms, names. repeat (split; [assumption || reflexivity|]).
  reflexivity.
Qed.

(** X14: the command [moves <square>] never raises and never changes the
    game.  The loop trims the line it reads, so the argument is always there
    to read.  When the argument is not a square name nothing is printed;
    otherwise one line is printed, the names of the legal moves from that
    square joined by [", "], and each name parses back to the move it stands
    for.  An empty square gives an empty list. *)
Theorem moves_command (fuel : nat) (line : string) (w : World) :
  wf_board (board (self w)) -> (8 < fuel)%nat ->
  String.prefix "moves " (strip line) = true ->
  exists w' arg rest,
    input_loop_body fuel (strip line) w = (Ret Continue, w') /\
    self w' = self w /\
    split (strip line) = "moves"%string :: arg :: rest /\
    ((algebraic_to_rc arg = Ret None /\ stdout w' = stdout w) \/
     (exists r c ms names,
        algebraic_to_rc arg = Ret (Some (r, c)) /\
        Board_legal_moves_from fuel (board (self w)) r c = Ret ms /\
        (Board_at (board (self w)) r c = Ret None -> ms = []) /\
        Forall2 (fun n sq => algebraic_to_rc n = Ret (Some sq)) names ms /\
        stdout w' = stdout w ++ [PrintLine (join ", " names)])).
Proof.
  intros Hwf Hfuel Hp.
  apply moves_command_step; try assumption.
  unfold strip. apply rstrip_idem.
Qed.

Lemma moves_command_witness :
  exists w' arg rest,
    input_loop_body 9 (strip "  moves  e2 ") opening_world = (Ret Continue, w') /\
    self w' = self opening_world /\
    split (strip "  moves  e2 ") = "moves"%string :: arg :: rest /\
    ((algebraic_to_rc arg = Ret None /\ stdout w' = stdout opening_world) \/
     (exists r c ms names,
        algebraic_to_rc arg = Ret (Some (r, c)) /\
        Board_legal_moves_from 9 (board (self opening_world)) r c = Ret ms /\
        (Board_at (board (self opening_world)) r c = Ret None -> ms = []) /\
        Forall2 (fun n sq => algebraic_to_rc n = Ret (Some sq)) names ms /\
        stdout w' = stdout opening_world ++ [PrintLine (join ", " names)])).
Proof.
  apply (moves_command 9 "  moves  e2 " opening_world).
  - exact initial_board_wf.
  - lia.
  - reflexivity.
Defined.

(** ** The loop as a whole *)

Lemma input_loop_body_step (fuel : nat) (raw : string) (w : World) :
  wf_board (board (self w)) -> (8 < fuel)%nat -> rstrip raw = raw ->
  exists c w',
    input_loop_body fuel raw w = (Ret c, w') /\
    (c = Break <-> is_quit raw = true) /\
    (self w' = self w \/ played fuel (self w) (self w')).
Proof.
  intros Hwf Hfuel Hr.
  destruct (String.prefix "moves " raw) eqn:Hp.
  { destruct (moves_command_step fuel raw w Hwf Hfuel Hr Hp)
      as (w' & arg & rest & Hrun & Hself & _).
    exists Continue, w'. split; [exact Hrun|]. split; [|auto].
    destruct (prefix_moves raw Hp) as (tail & ->).
    split; [discriminate|]. intros H. discriminate H. }
  unfold input_loop_body. fold (is_quit raw). rewrite Hp.
  destruct (is_quit raw).
  { exists Break, w. split; [reflexivity|]. split; [tauto|auto]. }
  destruct (String.eqb raw "board").
  { eexists Continue, _. split; [reflexivity|].
    split; [split; discriminate|auto]. }
  destruct (String.eqb raw "history").
  { unfold sbind, reading. rewrite sfor_print_lines.
    eexists Continue, _. split; [reflexivity|].
    split; [split; discriminate|auto]. }
  destruct (input_loop_move_step fuel (split raw) w Hwf Hfuel) as (w' & Hrun & Hw).
  exists Continue, w'. split; [exact Hrun|]. split; [split; discriminate|].
  destruct Hw as [->|[Hpl _]]; auto.
Qed.

Lemma played_running (fuel : nat) (g g' : Game) :
  played fuel g g' -> running g' = running g.
Proof.
  intros (p0 & p1 & r1 & c1 & r2 & c2 & p & b' & _ & _ & _ & _ & _ & ->).
  reflexivity.
Qed.

Lemma input_loop_while_invariant (fuel : nat) (P : Game -> Prop) :
  (8 < fuel)%nat ->
  (forall g g', wf_board (board g) -> P g -> played fuel g g' -> P g') ->
  forall inputs w,
    wf_board (board (self w)) -> P (self w) ->
    wf_board (board (self (snd (input_loop_while fuel inputs w)))) /\
    P (self (snd (input_loop_while fuel inputs w))).
Proof.
  intros Hfuel Hstep. induction inputs as [|line rest IH]; intros w Hwf HP.
  - simpl. unfold sbind, reading, sret, print.
    destruct (running (self w)); cbn [negb snd self]; auto.
  - simpl. unfold sbind, reading, sret, print.
    destruct (running (self w)); cbn [negb snd self]; auto.
    match goal with
    | |- context [input_loop_body fuel (strip line) ?w1] => set (w1' := w1)
    end.
    destruct (input_loop_body_step fuel (strip line) w1' Hwf Hfuel
                (rstrip_idem _)) as (c & w2 & Hrun & _ & Hw2).
    rewrite Hrun. cbn [self] in Hw2.
    assert (Hwf2 : wf_board (board (self w2)) /\ P (self w2)).
    { destruct Hw2 as [->|Hpl]; [auto|].
      split; [eapply played_wf; eassumption|eapply Hstep; eassumption]. }
    destruct c; [|exact Hwf2].
    apply IH; tauto.
Qed.

(** X15: the loop ends in two ways only.  It returns when a line, trimmed,
    is [quit] or [exit], and otherwise raises the [EOFError] of [input]
    once the lines are used up; no command makes it raise anything else.
    The [running] flag is never changed, so a loop entered with it cleared
    returns at once. *)
Theorem input_loop_ends (fuel : nat) (inputs : list string) (w : World) :
  wf_board (board (self w)) -> (8 < fuel)%nat ->
  (running (self w) = true ->
   fst (input_loop fuel inputs w)
   = if existsb (fun line => is_quit (strip line)) inputs
     then Ret tt else Raise EOFError) /\
  (running (self w) = false -> fst (input_loop fuel inputs w) = Ret tt) /\
  running (self (snd (input_loop fuel inputs w))) = running (self w).
Proof.
  intros Hwf Hfuel. unfold input_loop, sbind, reading, print. cbv beta iota.
  set (w0 := mkWorld (self w) (stdout w ++ [PrintBoard (board (self w))])).
  assert (Hwf0 : wf_board (board (self w0))) by exact Hwf.
  change (running (self w)) with (running (self w0)).
  clearbody w0. clear w Hwf. revert w0 Hwf0.
  induction inputs as [|line rest IH]; intros w Hwf.
  - simpl. unfold sbind, reading, sret, print.
    destruct (running (self w)) eqn:Hrun; cbn [negb fst snd self];
      repeat split; congruence.
  - simpl. unfold sbind, reading, sret, print.
    destruct (running (self w)) eqn:Hrun; cbn [negb fst snd self];
      [|repeat split; congruence].
    match goal with
    | |- context [input_loop_body fuel (strip line) ?w1] => set (w1' := w1)
    end.
    destruct (input_loop_body_step fuel (strip line) w1' Hwf Hfuel
                (rstrip_idem _)) as (c & w2 & Hbody & Hc & Hw2).
    rewrite Hbody. cbn [self] in Hw2.
    assert (Hrun2 : running (self w2) = true).
    { destruct Hw2 as [->|Hpl]; [exact Hrun|].
      rewrite (played_running _ _ _ Hpl). exact Hrun. }
    assert (Hwf2 : wf_board (board (self w2))).
    { destruct Hw2 as [->|Hpl]; [exact Hwf|]. eapply played_wf; eassumption. }
    destruct c.
    + assert (Hq : is_quit (strip line) = false).
      { destruct (is_quit (strip line)); [|reflexivity].
        destruct Hc as [_ Hc]. discriminate (Hc eq_refl). }
      rewrite Hq. cbn [orb].
      destruct (IH w2 Hwf2) as (I1 & I2 & I3).
      rewrite Hrun2 in *. repeat split; auto; congruence.
    + rewrite (proj1 Hc eq_refl). cbn [orb fst snd].
      repeat split; congruence.
Qed.

Lemma input_loop_ends_witness :
  fst (input_loop 9 ["e2 e4"; " quit "; "e7 e5"]%string opening_world) = Ret tt /\
  fst (input_loop 9 ["e2 e4"; "quit now"]%string opening_world) = Raise EOFError.
Proof.
  split.
  - apply (proj1 (input_loop_ends 9 ["e2 e4"; " quit "; "e7 e5"]%string
                    opening_world initial_board_wf ltac:(lia))).
    reflexivity.
  - apply (proj1 (input_loop_ends 9 ["e2 e4"; "quit now"]%string
                    opening_world initial_board_wf ltac:(lia))).
    reflexivity.
Defined.

Lemma input_loop_unfold (fuel : nat) (inputs : list string) (w : World) :
  input_loop fuel inputs w
  = input_loop_while fuel inputs
      (mkWorld (self w) (stdout w ++ [PrintBoard (board (self w))])).
Proof. reflexivity. Qed.

Lemma played_entry (fuel : nat) (g g' : Game) :
  played fuel g g' ->
  exists e, move_entry e /\ history g' = history g ++ [e] /\
            turn g' = Game_other (turn g).
Proof.
  intros (p0 & p1 & r1 & c1 & r2 & c2 & p & b' & H0 & H1 & _ & _ & _ & ->).
  exists (history_entry p0 p1). split; [|split; reflexivity].
  exists p0, p1. split; [reflexivity|].
  destruct (algebraic_to_rc_cases p0) as [(f & d & Hn & Hf & Hd & _)|(_ & Hnone)];
    [|congruence].
  destruct (algebraic_to_rc_cases p1) as [(f' & d' & Hn' & Hf' & Hd' & _)|(_ & Hnone)];
    [|congruence].
  split; [exists f, d|exists f', d']; auto.
Qed.

(** X16: the history only grows and the turn follows it.  After the loop
    has run on any lines, the history is the old one with entries appended,
    each two valid square names around [" -> "], and the turn is the old
    one when an even number of entries was appended and the other colour
    when an odd number was. *)
Theorem input_loop_history (fuel : nat) (inputs : list string) (w : World) :
  wf_board (board (self w)) -> (8 < fuel)%nat ->
  exists ext,
    history (self (snd (input_loop fuel inputs w))) = history (self w) ++ ext /\
    Forall move_entry ext /\
    turn (self (snd (input_loop fuel inputs w)))
    = if Nat.even (List.length ext) then turn (self w)
      else Game_other (turn (self w)).
Proof.
  intros Hwf Hfuel. rewrite input_loop_unfold.
  set (w0 := mkWorld (self w) (stdout w ++ [PrintBoard (board (self w))])).
  apply (input_loop_while_invariant fuel
           (fun g => exists ext,
              history g = history (self w) ++ ext /\
              Forall move_entry ext /\
              turn g = if Nat.even (List.length ext) then turn (self w)
                       else Game_other (turn (self w)))
           Hfuel).
  - intros g g' _ (ext & Hh & Hall & Ht) Hpl.
    destruct (played_entry fuel g g' Hpl) as (e & He & Hh' & Ht').
    exists (ext ++ [e]). split; [rewrite Hh', Hh, app_assoc; reflexivity|].
    split; [apply Forall_app; auto|].
    rewrite Ht', Ht, length_app, Nat.add_1_r, Nat.even_succ, <- Nat.negb_even.
    destruct (Nat.even (List.length ext)), (turn (self w)); reflexivity.
  - exact Hwf.
  - exists []. cbn [self w0]. rewrite app_nil_r. repeat split. constructor.
Qed.

Lemma input_loop_history_witness :
  exists ext,
    history (self (snd (input_loop 9 ["e2 e4"; "e2 e5"; "E7 e5"]%string
                          opening_world)))
    = history (self opening_world) ++ ext /\
    Forall move_entry ext /\
    turn (self (snd (input_loop 9 ["e2 e4"; "e2 e5"; "E7 e5"]%string
                       opening_world)))
    = if Nat.even (List.length ext) then turn (self opening_world)
      else Game_other (turn (self opening_world)).
Proof.
  apply (input_loop_history 9 ["e2 e4"; "e2 e5"; "E7 e5"]%string opening_world).
  - exact initial_board_wf.
  - lia.
Defined.

Lemma initial_board_no_pawn_on_last_rank : no_pawn_on_last_rank initial_board.
Proof.
  intros c Hc.
  assert (Hcs : c = 0 \/ c = 1 \/ c = 2 \/ c = 3 \/ c = 4 \/ c = 5 \/ c = 6 \/ c = 7)
    by lia.
  repeat (destruct Hcs as [Hcs|Hcs]; [subst c; split; discriminate|]).
  subst c; split; discriminate.
Qed.

(** X17: in a game started by [Game()] and driven by any input lines, the
    grid stays 8x8, neither side ever has more than sixteen pieces, and no
    White pawn is left on row 0 nor Black pawn on row 7. *)
Theorem session_board_invariants (fuel : nat) (inputs : list string) (g : Game) :
  (8 < fuel)%nat -> Game_init = Ret g ->
  let b := board (self (snd (input_loop fuel inputs (mkWorld g [])))) in
  wf_board b /\
  (count_color b WHITE <= 16)%nat /\
  (count_color b BLACK <= 16)%nat /\
  no_pawn_on_last_rank b.
Proof.
  intros Hfuel Hg b. subst b. rewrite input_loop_unfold.
  assert (Hg' : g = mkGame initial_board WHITE [] true)
    by (vm_compute in Hg; inversion Hg; reflexivity).
  subst g. cbn [self stdout board].
  match goal with
  | |- context [input_loop_while fuel inputs ?w1] => set (w0 := w1)
  end.
  destruct (input_loop_while_invariant fuel
              (fun g => (count_color (board g) WHITE <= 16)%nat /\
                        (count_color (board g) BLACK <= 16)%nat /\
                        no_pawn_on_last_rank (board g))
              Hfuel) with (inputs := inputs) (w := w0) as [Hwf HP].
  - intros g g' Hwf (HW & HB & Hnp)
      (p0 & p1 & r1 & c1 & r2 & c2 & p & b' & H0 & H1 & _ & _ & Hm & ->).
    cbn [applied Game_switch_turn board].
    pose proof (algebraic_to_rc_in_bounds p0 r1 c1 H0) as Hb1.
    pose proof (algebraic_to_rc_in_bounds p1 r2 c2 H1) as Hb2.
    destruct (Board_move_accepted fuel _ b' r1 c1 r2 c2 _ Hwf Hb1 Hb2 Hm)
      as (p' & ms & Hp' & _ & _ & _ & Hne & _ & ->).
    pose proof (count_moved_board _ r1 c1 r2 c2 p' WHITE Hwf Hb1 Hb2 Hp' Hne).
    pose proof (count_moved_board _ r1 c1 r2 c2 p' BLACK Hwf Hb1 Hb2 Hp' Hne).
    split; [lia|]. split; [lia|].
    apply moved_board_no_pawn_on_last_rank; assumption.
  - exact initial_board_wf.
  - split; [vm_compute; lia|]. split; [vm_compute; lia|].
    exact initial_board_no_pawn_on_last_rank.
  - tauto.
Qed.

Lemma session_board_invariants_witness :
  wf_board (board (self (snd (input_loop 9 ["e2 e4"; "d7 d5"; "e4 d5"]%string
                                (mkWorld (mkGame initial_board WHITE [] true) [])))))
  /\ (count_color
        (board (self (snd (input_loop 9 ["e2 e4"; "d7 d5"; "e4 d5"]%string
                            (mkWorld (mkGame initial_board WHITE [] true) [])))))
        BLACK <= 16)%nat.
Proof.
  destruct (session_board_invariants 9 ["e2 e4"; "d7 d5"; "e4 d5"]%string
              (mkGame initial_board WHITE [] true) ltac:(lia) eq_refl)
    as (Hwf & _ & Hb & _).
  split; assumption.
Defined.

(** ** Square names up to case and surrounding whitespace *)

Lemma is_space_lower (a : ascii) : is_space (lower_ascii a) = is_space a.
Proof. destruct a as [[] [] [] [] [] [] [] []]; reflexivity. Qed.

Lemma lstrip_lower (s : string) : lstrip (lower s) = lower (lstrip s).
Proof.
  induction s as [|a s IH]; [reflexivity|]. simpl.
  rewrite is_space_lower. destruct (is_space a); [exact IH|reflexivity].
Qed.

Lemma rstrip_lower (s : string) : rstrip (lower s) = lower (rstrip s).
Proof.
  induction s as [|a s IH]; [reflexivity|]. simpl.
  rewrite IH, is_space_lower.
  destruct (rstrip s); simpl; [destruct (is_space a)|]; reflexivity.
Qed.

Lemma strip_lower (s : string) : strip (lower s) = lower (strip s).
Proof. unfold strip. rewrite lstrip_lower, rstrip_lower. reflexivity. Qed.

Lemma rstrip_all_space (s : string) :
  all_space s = true -> rstrip s = EmptyString.
Proof.
  induction s as [|a s IH]; [reflexivity|]. simpl.
  intros H. apply andb_true_iff in H. destruct H as [Ha Hs].
  rewrite (IH Hs), Ha. reflexivity.
Qed.

Lemma lstrip_all_space (s : string) :
  all_space s = true -> lstrip s = EmptyString.
Proof.
  induction s as [|a s IH]; [reflexivity|]. simpl.
  intros H. apply andb_true_iff in H. destruct H as [Ha Hs].
  rewrite Ha. exact (IH Hs).
Qed.

Lemma rstrip_app_space (s post : string) :
  all_space post = true -> rstrip (s ++ post) = rstrip s.
Proof.
  intros H. induction s as [|a s IH]; simpl.
  - apply rstrip_all_space. assumption.
  - rewrite IH. reflexivity.
Qed.

Lemma lstrip_app_space (pre s : string) :
  all_space pre = true -> lstrip (pre ++ s) = lstrip s.
Proof.
  induction pre as [|a pre IH]; [reflexivity|]. simpl.
  intros H. apply andb_true_iff in H. destruct H as [Ha Hs].
  rewrite Ha. exact (IH Hs).
Qed.

Lemma lstrip_app (s post : string) :
  lstrip (s ++ post)
  = if all_space s then lstrip post else (lstrip s ++ post)%string.
Proof.
  induction s as [|a s IH]; [reflexivity|]. simpl.
  destruct (is_space a); [exact IH|reflexivity].
Qed.

Lemma strip_surrounded (pre s post : string) :
  all_space pre = true -> all_space post = true ->
  strip (pre ++ s ++ post) = strip s.
Proof.
  intros Hpre Hpost. unfold strip.
  rewrite (lstrip_app_space pre _ Hpre), lstrip_app.
  destruct (all_space s) eqn:Hs.
  - rewrite (lstrip_all_space post Hpost), (lstrip_all_space s Hs). reflexivity.
  - apply rstrip_app_space. assumption.
Qed.

Lemma algebraic_to_rc_normalize (s1 s2 : string) :
  normalize s1 = normalize s2 -> algebraic_to_rc s1 = algebraic_to_rc s2.
Proof.
  intros H. unfold algebraic_to_rc. fold (normalize s1) (normalize s2).
  rewrite H. reflexivity.
Qed.

(** X11: [algebraic_to_rc] reads a name up to case and surrounding
    whitespace: two strings with the same lowercase form give the same
    result, and so do a string and the same string between two runs of
    whitespace. *)
Theorem parse_ignores_case_and_space :
  (forall s1 s2, lower s1 = lower s2 -> algebraic_to_rc s1 = algebraic_to_rc s2) /\
  (forall pre s post,
     all_space pre = true -> all_space post = true ->
     algebraic_to_rc (pre ++ s ++ post) = algebraic_to_rc s).
Proof.
  split.
  - intros s1 s2 H. apply algebraic_to_rc_normalize. unfold normalize.
    rewrite <- !strip_lower, H. reflexivity.
  - intros pre s post Hpre Hpost. apply algebraic_to_rc_normalize.
    unfold normalize. rewrite strip_surrounded by assumption. reflexivity.
Qed.

Lemma parse_ignores_case_and_space_witness :
  algebraic_to_rc "E4" = algebraic_to_rc "e4" /\
  algebraic_to_rc ("  " ++ "e4" ++ " ") = algebraic_to_rc "e4".
Proof.
  split.
  - apply (proj1 parse_ignores_case_and_space "E4"%string "e4"%string).
    reflexivity.
  - apply (proj2 parse_ignores_case_and_space "  "%string "e4"%string " "%string);
      reflexivity.
Defined.

(** ** Names of squares off the board *)










(** ** A move once made *)

(** X18: a move that was accepted cannot be made a second time: on the
    board it leaves, the same call returns failure (its source is now
    empty) and changes nothing. *)
Theorem Board_move_not_repeatable (fuel fuel' : nat) (b b' : Board)
  (r1 c1 r2 c2 : Z) (msg : string) :
  wf_board b -> in_bounds r1 c1 = true -> in_bounds r2 c2 = true ->
  Board_move fuel (r1, c1) (r2, c2) b = (Ret (true, msg), b') ->
  Board_move fuel' (r1, c1) (r2, c2) b' = (Ret (false, EmptyString), b').
Proof.
  intros Hwf H1 H2 H.
  destruct (Board_move_accepted fuel b b' r1 c1 r2 c2 msg Hwf H1 H2 H)
    as (p & ms & _ & _ & _ & _ & Hne & _ & ->).
  pose proof (moved_board_wf b r1 c1 r2 c2 p Hwf H1 H2) as Hwf'.
  rewrite (Board_move_unfold fuel' _ r1 c1 r2 c2 Hwf' H1 H2).
  rewrite cell_moved_board by assumption.
  assert (Hs : (r1 =? r2) && (c1 =? c2) = false).
  { apply andb_false_iff. rewrite !Z.eqb_neq.
    destruct (Z.eq_dec r1 r2); [right|left]; congruence. }
  rewrite Hs, !Z.eqb_refl. reflexivity.
Qed.

Lemma Board_move_not_repeatable_witness :
  Board_move 9 (6, 4) (4, 4) (snd (Board_move 9 (6, 4) (4, 4) initial_board))
  = (Ret (false, EmptyString), snd (Board_move 9 (6, 4) (4, 4) initial_board)).
Proof.
  apply (Board_move_not_repeatable 9 9 initial_board _ 6 4 4 4 EmptyString).
  - exact initial_board_wf.
  - reflexivity.
  - reflexivity.
  - vm_compute. reflexivity.
Defined.

(** ** No square twice *)

Lemma NoDup_append {A : Type} (l l' : list A) :
  NoDup l -> NoDup l' -> (forall a, In a l -> In a l' -> False) ->
  NoDup (l ++ l').
Proof.
  intros Hl Hl' Hd. induction Hl as [|x l Hx Hl IH]; simpl; [assumption|].
  constructor.
  - rewrite in_app_iff. intros [H|H]; [contradiction|].
    apply (Hd x); simpl; auto.
  - apply IH. intros a Ha Ha'. apply (Hd a); simpl; auto.
Qed.

Lemma for_each_NoDup {A B : Type} (xs : list A) (body : A -> outcome (list B))
  (ms : list B) :
  for_each xs body = Ret ms ->
  NoDup xs ->
  (forall x m, In x xs -> body x = Ret m -> NoDup m) ->
  (forall x x' m m' y,
     In x xs -> In x' xs -> x <> x' ->
     body x = Ret m -> body x' = Ret m' -> In y m -> In y m' -> False) ->
  NoDup ms.
Proof.
  revert ms. induction xs as [|x xs IH]; intros ms H Hnd Hone Hdis; simpl in H.
  - inversion H. constructor.
  - apply bind_Ret_inv in H. destruct H as (here & Hhere & H).
    apply bind_Ret_inv in H. destruct H as (rest & Hrest & H).
    inversion H; subst ms; clear H. inversion Hnd as [|? ? Hx Hnd']; subst.
    apply NoDup_append.
    + apply (Hone x); simpl; auto.
    + apply (IH rest Hrest Hnd').
      * intros x' m Hin. apply Hone. simpl; auto.
      * intros x1 x2 m m' y Hi1 Hi2. apply Hdis; simpl; auto.
    + intros y Hy Hy'.
      apply (for_each_In _ _ _ Hrest y) in Hy'.
      destruct Hy' as (x' & m' & Hx' & Hb' & Hy').
      apply (Hdis x x' here m' y); simpl; auto.
      intros ->. contradiction.
Qed.

Lemma line_walk_NoDup (fuel : nat) (self : Piece) (b : Board) (dr dc : Z) :
  wf_board b -> unit_step dr dc ->
  forall rr cc ms, line_walk fuel self b rr cc dr dc = Ret ms -> NoDup ms.
Proof.
  intros Hwf Hd. induction fuel as [|n IH]; intros rr cc ms H; simpl in H.
  - discriminate.
  - destruct (in_bounds rr cc) eqn:Hb; [|inversion H; constructor].
    rewrite (Board_at_cell b rr cc Hwf Hb) in H. simpl in H.
    destruct (cell b rr cc) as [t|].
    + destruct (is_opponent self (Some t)); inversion H;
        repeat constructor; intros [].
    + apply bind_Ret_inv in H. destruct H as (rest & Hrest & H).
      inversion H; subst ms; clear H. constructor; [|eapply IH; eassumption].
      intros Hin.
      apply (line_walk_In n self b dr dc Hwf _ _ _ Hrest) in Hin.
      apply (walk_reach_off_origin self b rr cc dr dc _ Hd Hin). reflexivity.
Qed.

Lemma walk_reach_direction (self : Piece) (b : Board) (r c dr dc dr' dc' : Z)
  (sq : Z * Z) :
  unit_step dr dc -> unit_step dr' dc' ->
  walk_reach self b (r + dr) (c + dc) dr dc sq ->
  walk_reach self b (r + dr') (c + dc') dr' dc' sq ->
  (dr, dc) = (dr', dc').
Proof.
  intros (Hr & Hc & _) (Hr' & Hc' & _) (k & -> & _) (k' & Heq & _).
  apply pair_equal_spec in Heq. destruct Heq as [E1 E2].
  assert (A : dr = -1 \/ dr = 0 \/ dr = 1) by lia.
  assert (B : dc = -1 \/ dc = 0 \/ dc = 1) by lia.
  assert (A' : dr' = -1 \/ dr' = 0 \/ dr' = 1) by lia.
  assert (B' : dc' = -1 \/ dc' = 0 \/ dc' = 1) by lia.
  destruct A as [-> | [-> | ->]], B as [-> | [-> | ->]],
           A' as [-> | [-> | ->]], B' as [-> | [-> | ->]];
    first [reflexivity | exfalso; lia].
Qed.

Lemma line_moves_NoDup (fuel : nat) (self : Piece) (b : Board) (r c : Z)
  (deltas : list (Z * Z)) (ms : list (Z * Z)) :
  wf_board b -> NoDup deltas ->
  (forall dr dc, In (dr, dc) deltas -> unit_step dr dc) ->
  line_moves fuel self b r c deltas = Ret ms -> NoDup ms.
Proof.
  intros Hwf Hnd Hunit H. unfold line_moves in H.
  apply (for_each_NoDup _ _ _ H Hnd).
  - intros [dr dc] m Hin Hm.
    exact (line_walk_NoDup fuel self b dr dc Hwf (Hunit dr dc Hin) _ _ _ Hm).
  - intros [dr dc] [dr' dc'] m m' y Hin Hin' Hne Hm Hm' Hy Hy'.
    apply Hne.
    apply (line_walk_In fuel self b dr dc Hwf _ _ _ Hm) in Hy.
    apply (line_walk_In fuel self b dr' dc' Hwf _ _ _ Hm') in Hy'.
    eapply walk_reach_direction; [apply Hunit| apply Hunit| |]; eassumption.
Qed.

Lemma leap_shape (self : Piece) (b : Board) (r c dr dc : Z) (ms : list (Z * Z)) :
  leap self b r c dr dc = Ret ms -> ms = [] \/ ms = [(r + dr, c + dc)].
Proof.
  unfold leap. cbv zeta. intros H.
  destruct (in_bounds (r + dr) (c + dc)); [|inversion H; auto].
  destruct (Board_at b (r + dr) (c + dc)) as [[t|]| |]; cbn [bind] in H;
    try discriminate.
  - destruct (is_opponent self (Some t)); inversion H; auto.
  - inversion H; auto.
Qed.

Lemma leap_NoDup (self : Piece) (b : Board) (r c dr dc : Z) (ms : list (Z * Z)) :
  leap self b r c dr dc = Ret ms -> NoDup ms.
Proof.
  intros H. destruct (leap_shape _ _ _ _ _ _ _ H) as [-> | ->];
    repeat constructor. intros [].
Qed.

Lemma leap_In (self : Piece) (b : Board) (r c dr dc : Z) (ms : list (Z * Z))
  (y : Z * Z) :
  leap self b r c dr dc = Ret ms -> In y ms -> y = (r + dr, c + dc).
Proof.
  intros H Hy. destruct (leap_shape _ _ _ _ _ _ _ H) as [-> | ->].
  - destruct Hy.
  - destruct Hy as [<-|[]]. reflexivity.
Qed.

Lemma King_moves_NoDup (self : Piece) (b : Board) (r c : Z) (ms : list (Z * Z)) :
  King_moves self b r c = Ret ms -> NoDup ms.
Proof.
  unfold King_moves. intros H.
  assert (Hnd : NoDup [-1; 0; 1]).
  { repeat constructor; simpl; intuition discriminate. }
  assert (Hcol : forall dr dc m y,
            (if (dr =? 0) && (dc =? 0) then Ret [] else leap self b r c dr dc)
            = Ret m -> In y m -> y = (r + dr, c + dc)).
  { intros dr dc m y Hm Hy. destruct ((dr =? 0) && (dc =? 0)).
    - inversion Hm; subst. destruct Hy.
    - eapply leap_In; eassumption. }
  apply (for_each_NoDup _ _ _ H Hnd).
  - intros dr m _ Hm. apply (for_each_NoDup _ _ _ Hm Hnd).
    + intros dc m' _ Hm'. destruct ((dr =? 0) && (dc =? 0)).
      * inversion Hm'. constructor.
      * eapply leap_NoDup; eassumption.
    + intros dc dc' m1 m2 y _ _ Hne H1 H2 Hy Hy'.
      apply (Hcol _ _ _ _ H1) in Hy. apply (Hcol _ _ _ _ H2) in Hy'.
      rewrite Hy in Hy'. apply pair_equal_spec in Hy'. lia.
  - intros dr dr' m m' y _ _ Hne Hm Hm' Hy Hy'.
    apply (for_each_In _ _ _ Hm y) in Hy.
    apply (for_each_In _ _ _ Hm' y) in Hy'.
    destruct Hy as (dc & m1 & _ & H1 & Hy).
    destruct Hy' as (dc' & m2 & _ & H2 & Hy').
    apply (Hcol _ _ _ _ H1) in Hy. apply (Hcol _ _ _ _ H2) in Hy'.
    rewrite Hy in Hy'. apply pair_equal_spec in Hy'. lia.
Qed.

Lemma Knight_moves_NoDup (self : Piece) (b : Board) (r c : Z) (ms : list (Z * Z)) :
  Knight_moves self b r c = Ret ms -> NoDup ms.
Proof.
  unfold Knight_moves. intros H.
  apply (for_each_NoDup _ _ _ H).
  - unfold Knight_deltas.
    repeat constructor; simpl; intuition discriminate.
  - intros [dr dc] m _ Hm. eapply leap_NoDup; eassumption.
  - intros [dr dc] [dr' dc'] m m' y _ _ Hne Hm Hm' Hy Hy'.
    apply (leap_In _ _ _ _ _ _ _ _ Hm) in Hy.
    apply (leap_In _ _ _ _ _ _ _ _ Hm') in Hy'.
    rewrite Hy in Hy'. apply pair_equal_spec in Hy'.
    apply Hne. f_equal; lia.
Qed.

Lemma Pawn_moves_NoDup (self : Piece) (b : Board) (r c : Z) (ms : list (Z * Z)) :
  Pawn_moves self b r c = Ret ms -> NoDup ms.
Proof.
  unfold Pawn_moves.
  fold (pawn_dir (color self)) (pawn_start (color self)).
  assert (Hd : pawn_dir (color self) = -1 \/ pawn_dir (color self) = 1)
    by (unfold pawn_dir; destruct (Color_eqb (color self) WHITE); auto).
  generalize dependent (pawn_dir (color self)). intros d Hd.
  generalize (pawn_start (color self)). intros start.
  cbv zeta. cbn [fst snd]. intros H.
  apply bind_Ret_inv in H. destruct H as (fw & Hfw & H).
  apply bind_Ret_inv in H. destruct H as (dg & Hdg & H).
  inversion H; subst ms; clear H.
  assert (Sfw : fw = [] \/ fw = [(r + d, c)]
                \/ fw = [(r + d, c); (r + 2 * d, c)]).
  { destruct (in_bounds (r + d) c); [|inversion Hfw; auto].
    destruct (Board_at b (r + d) c) as [[t|]| |]; cbn [bind] in Hfw;
      try discriminate; [inversion Hfw; auto|].
    destruct ((r =? start) && in_bounds (r + 2 * d) c); [|inversion Hfw; auto].
    destruct (Board_at b (r + 2 * d) c) as [[t2|]| |]; cbn [bind] in Hfw;
      try discriminate; inversion Hfw; auto. }
  assert (Sbody : forall dc m,
            (if in_bounds (r + d) (c + dc)
             then t <- Board_at b (r + d) (c + dc) ;;
                  (if is_opponent self t then Ret [(r + d, c + dc)] else Ret [])
             else Ret []) = Ret m ->
            m = [] \/ m = [(r + d, c + dc)]).
  { intros dc m Hm.
    destruct (in_bounds (r + d) (c + dc)); [|inversion Hm; auto].
    destruct (Board_at b (r + d) (c + dc)) as [t| |]; cbn [bind] in Hm;
      try discriminate.
    destruct (is_opponent self t); inversion Hm; auto. }
  apply NoDup_append.
  - destruct Sfw as [-> | [-> | ->]].
    + constructor.
    + constructor; [intros []|constructor].
    + constructor; [|constructor; [intros []|constructor]].
      intros [E|[]]. apply pair_equal_spec in E. lia.
  - apply (for_each_NoDup _ _ _ Hdg).
    + repeat constructor; simpl; intuition discriminate.
    + intros dc m _ Hm. destruct (Sbody dc m Hm) as [-> | ->];
        repeat constructor. intros [].
    + intros dc dc' m m' y _ _ Hne Hm Hm' Hy Hy'.
      destruct (Sbody dc m Hm) as [-> | ->]; [destruct Hy|].
      destruct (Sbody dc' m' Hm') as [-> | ->]; [destruct Hy'|].
      destruct Hy as [<-|[]]. destruct Hy' as [Hy'|[]].
      apply pair_equal_spec in Hy'. lia.
  - intros y Hy Hy'.
    apply (for_each_In _ _ _ Hdg y) in Hy'.
    destruct Hy' as (dc & m & Hdc & Hm & Hy').
    destruct (Sbody dc m Hm) as [-> | ->]; [destruct Hy'|].
    destruct Hy' as [<-|[]]. simpl in Hdc.
    destruct Sfw as [-> | [-> | ->]]; simpl in Hy.
    + destruct Hy.
    + destruct Hy as [E|[]]; apply pair_equal_spec in E; lia.
    + destruct Hy as [E|[E|[]]]; apply pair_equal_spec in E; lia.
Qed.

(** X19: no move generator lists a square twice: on an 8x8 board the list
    of pseudo-legal moves of any piece from any origin has no repetition. *)
Theorem pseudo_legal_moves_NoDup (fuel : nat) (p : Piece) (b : Board) (r c : Z)
  (ms : list (Z * Z)) :
  wf_board b -> pseudo_legal_moves fuel p b r c = Ret ms -> NoDup ms.
Proof.
  intros Hwf H. unfold pseudo_legal_moves in H.
  pose proof (slide_deltas_unit (kind p)) as Hunit.
  destruct (kind p).
  - eapply King_moves_NoDup; eassumption.
  - eapply line_moves_NoDup; try eassumption.
    unfold Queen_deltas. repeat constructor; simpl; intuition discriminate.
  - eapply line_moves_NoDup; try eassumption.
    unfold Rook_deltas. repeat constructor; simpl; intuition discriminate.
  - eapply line_moves_NoDup; try eassumption.
    unfold Bishop_deltas. repeat constructor; simpl; intuition discriminate.
  - eapply Knight_moves_NoDup; eassumption.
  - eapply Pawn_moves_NoDup; eassumption.
Qed.

Lemma pseudo_legal_moves_NoDup_witness :
  NoDup [(3, 3); (5, 3); (6, 3); (7, 3); (4, 2); (4, 1); (4, 0);
         (4, 4); (4, 5); (4, 6); (4, 7)].
Proof.
  apply (pseudo_legal_moves_NoDup 9 (mkPiece Rook WHITE) (rook_d4_board WHITE) 4 3).
  - exact (rook_d4_board_wf WHITE).
  - reflexivity.
Defined.
